(** * The dojo-style application store: state container, change
      subscriptions and the worker-backed proxy

    A shallow embedding of [src/stores/Store.ts] (both observed revisions of
    the file) together with the two collaborators it imports, [Pointer] and
    [Patch], whose sources are not part of the tree and are modelled from the
    specification.

    JavaScript values are trees whose containers carry the reference of the
    object they live in, so that [===] (identity on objects) and deep value
    equality can both be expressed.  Side effects (callback invocations,
    emitted events, posted worker messages) are returned as an ordered trace
    by every operation that performs them. *)

From Stdlib Require Import Ascii.
From stdpp Require Import gmap strings list fin_maps.
From stdpp Require Import pretty.

Set Default Proof Using "Type".
#[local] Set Warnings "-register-all".

(** ** JavaScript values *)

(** A value of the state tree.  Arrays and objects carry the reference
    ([ref]) of the heap object holding them; two containers are the same
    JavaScript object exactly when their references agree.  Numbers are
    restricted to integers. *)
Inductive Value : Type :=
| VNull
| VBool (b : bool)
| VNum (n : Z)
| VStr (s : string)
| VArr (ref : nat) (items : list Value)
| VObj (ref : nat) (fields : gmap string Value).

(** A JavaScript expression result: [None] is [undefined]. *)
Definition JsValue : Type := option Value.

(** The strict equality [a === b]: by value on primitives, by reference on
    arrays and objects. *)
Definition strict_eq (a b : JsValue) : bool :=
  match a, b with
  | None, None => true
  | Some VNull, Some VNull => true
  | Some (VBool x), Some (VBool y) => bool_decide (x = y)
  | Some (VNum x), Some (VNum y) => bool_decide (x = y)
  | Some (VStr x), Some (VStr y) => bool_decide (x = y)
  | Some (VArr r _), Some (VArr r' _) => bool_decide (r = r')
  | Some (VObj r _), Some (VObj r' _) => bool_decide (r = r')
  | _, _ => false
  end.

(** Forgets every reference of a value: what is left is its deep content. *)
Fixpoint erase (v : Value) : Value :=
  match v with
  | VArr _ l => VArr 0 (erase <$> l)
  | VObj _ m => VObj 0 (erase <$> m)
  | _ => v
  end.

(** Deep value equality: same shape and same leaves, whatever the objects. *)
Definition deep_eq (a b : Value) : Prop := erase a = erase b.

Definition deep_eq_js (a b : JsValue) : Prop := erase <$> a = erase <$> b.

(** The greatest reference occurring in a value. *)
Fixpoint max_ref (v : Value) : nat :=
  match v with
  | VArr r l => foldr (fun x acc => max_ref x `max` acc) r l
  | VObj r m => map_fold (fun _ x acc => max_ref x `max` acc) r m
  | _ => 0
  end.

(** The object literal [{}] and the array literal [[]], as allocated at
    reference [r]. *)
Definition empty_object (r : nat) : Value := VObj r ∅.
Definition empty_array (r : nat) : Value := VArr r [].

(** ** Insertion-ordered maps with string keys (the [Map] shim) *)

Section StringMap.
Context {V : Type}.

(** [m.get(k)]. *)
Fixpoint map_get (k : string) (m : list (string * V)) : option V :=
  match m with
  | [] => None
  | (k', v) :: rest => if bool_decide (k' = k) then Some v else map_get k rest
  end.

(** [m.set(k, v)]: an existing key keeps its position, a new key goes
    last. *)
Fixpoint map_set (k : string) (v : V) (m : list (string * V)) : list (string * V) :=
  match m with
  | [] => [(k, v)]
  | (k', v') :: rest =>
      if bool_decide (k' = k) then (k, v) :: rest else (k', v') :: map_set k v rest
  end.

Definition map_keys (m : list (string * V)) : list string := m.*1.
End StringMap.

(** ** Pointer *)

Module Pointer.

(** Modelled from the spec: the class [Pointer] of [stores/state/Pointer]
    (PathAddress, section 4.1), which the tree does not contain.  An
    address is its list of decoded segments. *)
Record t : Type := { segments : list string }.

(** Modelled from the spec: the symmetric escaping of the two pointer
    characters, absent with [Pointer]; the spec leaves the scheme open and
    the JSON-Pointer one is taken ([~] as [~0], [/] as [~1]). *)
Fixpoint encode (s : string) : string :=
  match s with
  | EmptyString => EmptyString
  | String "~"%char rest => String "~"%char (String "0"%char (encode rest))
  | String "/"%char rest => String "~"%char (String "1"%char (encode rest))
  | String c rest => String c (encode rest)
  end.

(** Modelled from the spec: the inverse of [encode], absent with
    [Pointer]. *)
Fixpoint decode (s : string) : string :=
  match s with
  | EmptyString => EmptyString
  | String "~"%char (String "0"%char rest) => String "~"%char (decode rest)
  | String "~"%char (String "1"%char rest) => String "/"%char (decode rest)
  | String c rest => String c (decode rest)
  end.

(** Modelled from the spec: the cutting of a pointer string at every [/],
    absent with [Pointer]; [cur] is the piece being read, reversed. *)
Fixpoint split_slash (s : string) (cur : string) : list string :=
  match s with
  | EmptyString => [String.rev cur]
  | String "/"%char rest => String.rev cur :: split_slash rest EmptyString
  | String c rest => split_slash rest (String c cur)
  end.

(** Modelled from the spec: [new Pointer(segments)] for an array of
    segments ([of], section 4.1), absent with [Pointer]. *)
Definition of_segments (segs : list string) : t := {| segments := segs |}.

(** Modelled from the spec: [new Pointer(str)] for a pointer string, absent
    with [Pointer].  The root is written [""] or ["/"]; a leading [/] is
    optional. *)
Definition of_string (s : string) : t :=
  match s with
  | EmptyString => {| segments := [] |}
  | String "/"%char EmptyString => {| segments := [] |}
  | String "/"%char rest => {| segments := decode <$> split_slash rest EmptyString |}
  | _ => {| segments := decode <$> split_slash s EmptyString |}
  end.

(** Modelled from the spec: [pointer.path], the normalized pointer string
    of an address, absent with [Pointer]. *)
Definition path (p : t) : string :=
  foldr (fun seg acc => String "/"%char (encode seg +:+ acc)) EmptyString (segments p).

(** Modelled from the spec: the reading of a segment as an array index,
    absent with [Pointer]: a run of decimal digits. *)
Fixpoint digits (s : string) (acc : nat) : option nat :=
  match s with
  | EmptyString => Some acc
  | String c rest =>
      let n := Ascii.nat_of_ascii c in
      if bool_decide (48 ≤ n ≤ 57) then digits rest (10 * acc + (n - 48)) else None
  end.

(** Modelled from the spec: the index a segment stands for in a sequence,
    absent with [Pointer]; the empty segment is none. *)
Definition parse_index (s : string) : option nat :=
  match s with
  | EmptyString => None
  | _ => digits s 0
  end.

(** Modelled from the spec: one step of [resolve], absent with [Pointer]:
    the child of a container under one segment; scalars have none. *)
Definition child (k : string) (node : Value) : JsValue :=
  match node with
  | VObj _ m => m !! k
  | VArr _ l => i ← parse_index k; l !! i
  | _ => None
  end.

(** Modelled from the spec: [pointer.get(object)] ([resolve], section 4.1),
    absent with [Pointer]: walks the value segment by segment and yields
    [undefined] as soon as a step is absent, never an error. *)
Fixpoint walk (segs : list string) (node : JsValue) : JsValue :=
  match segs with
  | [] => node
  | k :: rest => walk rest (node ≫= child k)
  end.

(** Modelled from the spec: [pointer.get(object)], absent with
    [Pointer]. *)
Definition get (p : t) (object : JsValue) : JsValue := walk (segments p) object.

End Pointer.

(** ** Operations and the patch engine *)

(** One structural edit.  Operations reach the store as objects
    [{ op, path, value }] whose [path] is a [Pointer]. *)
Inductive Operation : Type :=
| Add (path : Pointer.t) (value : Value)
| Replace (path : Pointer.t) (value : Value)
| Remove (path : Pointer.t).

Definition op_value (o : Operation) : JsValue :=
  match o with Add _ v | Replace _ v => Some v | Remove _ => None end.

Module Patch.

(** Modelled from the spec: the result of [Patch.apply] of
    [stores/state/Patch] (PatchResult, section 3), which the tree does not
    contain: the new root and the operations undoing the batch. *)
Record PatchResult : Type := { object : Value; undoOperations : list Operation }.

(** Modelled from the spec: what an operation does to the container
    holding its slot (section 4.2), absent with [Patch].  Each action
    returns the container, copied at reference [c], and the value the slot
    held before ([None] when it was absent or when an array element was
    inserted). *)
Definition SlotAction : Type := nat → string → Value → option (Value * JsValue).

(** Modelled from the spec: [Add] at its slot (section 4.2), absent with
    [Patch]: a mapping key is created or overwritten, an array element is
    inserted at its index, which may be the length (append). *)
Definition slot_add (v : Value) : SlotAction := fun c k node =>
  match node with
  | VObj _ m => Some (VObj c (<[k:=v]> m), m !! k)
  | VArr _ l =>
      i ← Pointer.parse_index k;
      if bool_decide (i ≤ length l)
      then Some (VArr c (take i l ++ v :: drop i l), None)
      else None
  | _ => None
  end.

(** Modelled from the spec: [Replace] at its slot (section 4.2), absent
    with [Patch]: only an existing slot is written. *)
Definition slot_replace (v : Value) : SlotAction := fun c k node =>
  match node with
  | VObj _ m => old ← m !! k; Some (VObj c (<[k:=v]> m), Some old)
  | VArr _ l =>
      i ← Pointer.parse_index k;
      old ← l !! i;
      Some (VArr c (<[i:=v]> l), Some old)
  | _ => None
  end.

(** Modelled from the spec: [Remove] at its slot (section 4.2), absent with
    [Patch]: only an existing slot is removed. *)
Definition slot_remove : SlotAction := fun c k node =>
  match node with
  | VObj _ m => old ← m !! k; Some (VObj c (delete k m), Some old)
  | VArr _ l =>
      i ← Pointer.parse_index k;
      old ← l !! i;
      Some (VArr c (delete i l), Some old)
  | _ => None
  end.

(** Modelled from the spec: the intermediate container [Add] creates for
    an absent ancestor, absent with [Patch].  The spec does not say which
    kind; an array is taken when the next segment is an index, a mapping
    otherwise. *)
Definition fresh_container (c : nat) (next : string) : Value :=
  match Pointer.parse_index next with
  | Some _ => empty_array c
  | None => empty_object c
  end.

(** Modelled from the spec: the write of a child into the copy of its
    container (section 4.2), absent with [Patch].  The copy of [node] takes
    reference [c]; an existing slot is overwritten, a new mapping key or
    the array position just past the end is created. *)
Definition put_child (c : nat) (k : string) (ch : Value) (node : Value) : option Value :=
  match node with
  | VObj _ m => Some (VObj c (<[k:=ch]> m))
  | VArr _ l =>
      i ← Pointer.parse_index k;
      if bool_decide (i < length l) then Some (VArr c (<[i:=ch]> l))
      else if bool_decide (i = length l) then Some (VArr c (l ++ [ch]))
      else None
  | _ => None
  end.

(** Modelled from the spec: the walk to the parent container of an address
    (section 4.2), absent with [Patch].  Every container on the way is
    shallow-copied, the copy at depth [d] taking reference [c + d];
    siblings are reused as they are.  Absent ancestors are created only
    when [create] is set; an address that cannot be followed, and the root
    address, which has no parent, yield [None]. *)
Fixpoint descend (create : bool) (leaf : SlotAction) (c : nat)
    (segs : list string) (node : Value) : option (Value * JsValue) :=
  match segs with
  | [] => None
  | k :: rest =>
      match rest with
      | [] => leaf c k node
      | next :: _ =>
          ch ← match Pointer.child k node with
               | Some ch => Some ch
               | None => if create then Some (fresh_container (S c) next) else None
               end;
          r ← descend create leaf (S c) rest ch;
          node' ← put_child c k r.1 node;
          Some (node', r.2)
      end
  end.

(** Modelled from the spec: one operation with its inverse (section 4.2),
    absent with [Patch].  An operation that does not apply leaves the root
    as it is and has no inverse. *)
Definition step (c : nat) (o : Operation) (root : Value) : Value * list Operation :=
  match o with
  | Add p v =>
      match descend true (slot_add v) c (Pointer.segments p) root with
      | Some (root', Some old) => (root', [Replace p old])
      | Some (root', None) => (root', [Remove p])
      | None => (root, [])
      end
  | Replace p v =>
      match descend false (slot_replace v) c (Pointer.segments p) root with
      | Some (root', Some old) => (root', [Replace p old])
      | _ => (root, [])
      end
  | Remove p =>
      match descend false slot_remove c (Pointer.segments p) root with
      | Some (root', Some old) => (root', [Add p old])
      | _ => (root, [])
      end
  end.

(** Modelled from the spec: the reference of a fresh copy, absent with
    [Patch]: one that no object of the root or of the operation uses. *)
Definition fresh_ref (root : Value) (o : Operation) : nat :=
  S (max_ref root `max` from_option max_ref 0 (op_value o)).

(** Modelled from the spec: the loop over the batch (section 4.2), absent
    with [Patch]: operations run in order and each inverse is put in front
    of the inverses gathered so far. *)
Fixpoint run (ops : list Operation) (root : Value) (undo : list Operation) : PatchResult :=
  match ops with
  | [] => {| object := root; undoOperations := undo |}
  | o :: rest =>
      let r := step (fresh_ref root o) o root in
      run rest r.1 (r.2 ++ undo)
  end.

(** Modelled from the spec: [new Patch(operations).apply(object)]
    (section 4.2), absent with [Patch]. *)
Definition apply (operations : list Operation) (object : Value) : PatchResult :=
  run operations object [].

End Patch.

(** ** Paths, worker messages, callbacks and effects *)

Module Path.
(** [interface Path<M, T>]: a pointer string with the state it was built
    against and the value found there at that time. *)
Record t : Type := { path : string; state : Value; value : JsValue }.
End Path.

(** An operation as it crosses the worker boundary: [{ ...op, path:
    op.path.path }], the pointer reduced to its string. *)
Inductive WireOperation : Type :=
| WireAdd (path : string) (value : Value)
| WireReplace (path : string) (value : Value)
| WireRemove (path : string).

Definition to_wire (o : Operation) : WireOperation :=
  match o with
  | Add p v => WireAdd (Pointer.path p) v
  | Replace p v => WireReplace (Pointer.path p) v
  | Remove p => WireRemove (Pointer.path p)
  end.

(** The payload of a request: a pointer string or a list of operations. *)
Inductive Payload : Type :=
| PointerPayload (path : string)
| OperationsPayload (operations : list WireOperation).

Module Request.
(** A request posted to the worker: [{ id, type, payload }]. *)
Record t : Type := { id : nat; type : string; payload : Payload }.
End Request.

Module Response.
(** The data of a message coming back from the worker: [{ id, result }]. *)
Record t : Type := { id : nat; result : JsValue }.
End Response.

(** A callback [() => void] is known by a name; calling it is an effect of
    the caller and does not re-enter the store. *)
Definition Callback : Type := nat.

(** What an operation of a store does to the outside, in order. *)
Inductive Effect : Type :=
| Called (callbackId : nat) (callback : Callback)   (* callback() *)
| Emitted (type : string)                            (* this.emit({ type }) *)
| Posted (request : Request.t)                        (* worker.postMessage *)
| Settled (id : nat) (result : JsValue)              (* the promise of request id resolves *)
| Warned (id : nat)                                  (* console.warn(..., id) *)
| Logged (text : string).                            (* console.log *)

(** The subscriber ids invoked in a trace, in order. *)
Definition called_ids (out : list Effect) : list nat :=
  omap (fun e => match e with Called i _ => Some i | _ => None end) out.

(** The events emitted in a trace, in order. *)
Definition emitted (out : list Effect) : list string :=
  omap (fun e => match e with Emitted ty => Some ty | _ => None end) out.

(** The requests posted in a trace, in order. *)
Definition posted (out : list Effect) : list Request.t :=
  omap (fun e => match e with Posted r => Some r | _ => None end) out.

(** The promises settled in a trace, with their results, in order. *)
Definition settled (out : list Effect) : list (nat * JsValue) :=
  omap (fun e => match e with Settled i r => Some (i, r) | _ => None end) out.

(** [interface OnChangeCallback]. *)
Record OnChangeCallback : Type := { callbackId : nat; callback : Callback }.

(** [interface OnChangeValue]. *)
Record OnChangeValue : Type :=
  { callbacks : list OnChangeCallback; previousValue : JsValue }.

(** ** Change detection

    Both stores run the same loop over their tracked addresses; they differ
    in the state they resolve the addresses against. *)

(** The body of [callbacks.forEach] in [_runOnChanges]: a callback runs
    unless its id was already called in this pass ([callbackIdsCalled]). *)
Definition fire (acc : list nat * list Effect) (item : OnChangeCallback)
    : list nat * list Effect :=
  if bool_decide (callbackId item ∈ acc.1) then acc
  else (acc.1 ++ [callbackId item],
        acc.2 ++ [Called (callbackId item) (callback item)]).

(** The body of [this._changePaths.forEach] in [_runOnChanges], for one
    entry, [currentState] being the state the address is resolved against. *)
Definition visit (currentState : JsValue)
    (acc : list (string * OnChangeValue) * (list nat * list Effect))
    (entry : string * OnChangeValue)
    : list (string * OnChangeValue) * (list nat * list Effect) :=
  let newValue := Pointer.get (Pointer.of_string entry.1) currentState in
  if strict_eq (previousValue entry.2) newValue then acc
  else (map_set entry.1
          {| callbacks := callbacks entry.2; previousValue := newValue |} acc.1,
        fold_left fire (callbacks entry.2) acc.2).

(** The whole loop: the entries are visited in insertion order; the only
    write of the loop is to the key being visited, so each entry is seen as
    it was when the loop started. *)
Definition run_changes (currentState : JsValue) (changePaths : list (string * OnChangeValue))
    : list (string * OnChangeValue) * list Effect :=
  let r := fold_left (visit currentState) changePaths (changePaths, ([], [])) in
  (r.1, r.2.2).

(** ** The local store *)

Module Store.

(** [class Store]: the private state object, the tracked addresses and the
    next subscriber id. *)
Record t : Type :=
  { _state : Value;
    _changePaths : list (string * OnChangeValue);
    _callbackId : nat }.

(** A store as its field initialisers leave it; [{}] is the object at
    reference [0]. *)
Definition create : t :=
  {| _state := empty_object 0; _changePaths := []; _callbackId := 0 |}.

(** [get(path)]. *)
Definition get (p : Path.t) : JsValue := Path.value p.

(** [_runOnChanges()]: addresses are resolved against [this._state]. *)
Definition _runOnChanges (st : t) : t * list Effect :=
  let r := run_changes (Some (_state st)) (_changePaths st) in
  ({| _state := _state st; _changePaths := r.1; _callbackId := _callbackId st |}, r.2).

(** [invalidate()]. *)
Definition invalidate (st : t) : t * list Effect :=
  let r := _runOnChanges st in
  (r.1, r.2 ++ [Emitted "invalidate"]).

(** [apply(operations, invalidate = false)]: the store after the call, the
    effects of the call and the undo operations returned. *)
Definition apply (operations : list Operation) (invalidate_arg : option bool) (st : t)
    : t * list Effect * list Operation :=
  let patchResult := Patch.apply operations (_state st) in
  let st1 := {| _state := Patch.object patchResult;
                _changePaths := _changePaths st;
                _callbackId := _callbackId st |} in
  let r := if default false invalidate_arg then invalidate st1 else (st1, []) in
  (r.1, r.2, Patch.undoOperations patchResult).

(** [_addOnChange(path, callback, callbackId)]. *)
Definition _addOnChange (p : Path.t) (cb : Callback) (id : nat) (st : t) : t :=
  let changePaths :=
    match map_get (Path.path p) (_changePaths st) with
    | Some known => known
    | None => {| callbacks := []; previousValue := get p |}
    end in
  {| _state := _state st;
     _changePaths :=
       map_set (Path.path p)
         {| callbacks := callbacks changePaths ++ [{| callbackId := id; callback := cb |}];
            previousValue := previousValue changePaths |}
         (_changePaths st);
     _callbackId := _callbackId st |}.

(** The handle [onChange] returns: its [remove] closes over the paths and
    the subscriber id of the call. *)
Record Handle : Type := { handle_paths : list Path.t; handle_callbackId : nat }.

(** [onChange(paths, callback)], [paths] being one path or an array. *)
Definition onChange (paths : Path.t + list Path.t) (cb : Callback) (st : t) : t * Handle :=
  let callbackId := _callbackId st in
  let paths := match paths with inl p => [p] | inr ps => ps end in
  let st1 := fold_left (fun s p => _addOnChange p cb callbackId s) paths st in
  ({| _state := _state st1;
      _changePaths := _changePaths st1;
      _callbackId := _callbackId st1 + 1 |},
   {| handle_paths := paths; handle_callbackId := callbackId |}).

(** The body of [paths.forEach] in [remove]. *)
Definition remove_at (id : nat) (cp : list (string * OnChangeValue)) (p : Path.t)
    : list (string * OnChangeValue) :=
  match map_get (Path.path p) cp with
  | Some onChange =>
      map_set (Path.path p)
        {| callbacks := filter (fun cb => callbackId cb ≠ id) (callbacks onChange);
           previousValue := previousValue onChange |} cp
  | None => cp
  end.

(** [handle.remove()]. *)
Definition remove (h : Handle) (st : t) : t :=
  {| _state := _state st;
     _changePaths := fold_left (remove_at (handle_callbackId h)) (handle_paths h) (_changePaths st);
     _callbackId := _callbackId st |}.

(** [path(path, ...segments)], [path] being a string or a [Path];
    [undefined] segments are dropped. *)
Definition path (input : string + Path.t) (segments : list (option string)) (st : t) : Path.t :=
  let segments :=
    match input with
    | inl s => Some s :: segments
    | inr p => (Some <$> Pointer.segments (Pointer.of_string (Path.path p))) ++ segments
    end in
  let stringSegments := omap (fun segment => segment) segments in
  let hasMultipleSegments := bool_decide (1 < length stringSegments) in
  let pointer :=
    if hasMultipleSegments then Pointer.of_segments stringSegments
    else Pointer.of_string (hd "" stringSegments) in
  {| Path.path := Pointer.path pointer;
     Path.state := _state st;
     Path.value := Pointer.get pointer (Some (_state st)) |}.

End Store.

(** ** The worker-backed store *)

(** What an asynchronous method hands back: a promise already fulfilled, or
    one that is fulfilled when the request of that id is settled. *)
Inductive Promise : Type :=
| Fulfilled (v : JsValue)
| Pending (id : nat).

(** The revision of [src/stores/Store.ts], whose [apply] is a stub. *)
Module WorkerStoreStub.

(** [class WorkerStore], as far as [apply] is concerned: the message
    counter and the ids awaiting an answer. *)
Record t : Type := { _messageId : nat; _messageQueue : gset nat }.

(** [apply(operations, invalidate = false)]:
    [return Promise.resolve({})]. *)
Definition apply (operations : list Operation) (invalidate_arg : option bool) (st : t)
    : t * list Effect * Promise :=
  (st, [], Fulfilled (Some (empty_object 0))).

End WorkerStoreStub.

(** The revision that forwards its requests to the worker. *)
Module WorkerStore.

(** What awaits the promise whose [resolve] sits in [_messageQueue]: the
    [await] of [get], or the [then] continuation of [apply] with the
    [invalidate] flag it closes over. *)
Inductive Waiter : Type :=
| AwaitGet
| ThenApply (invalidate : bool).

(** [class WorkerStore]: the message counter, the resolvers by message id,
    and the tracked addresses. *)
Record t : Type :=
  { _messageId : nat;
    _messageQueue : gmap nat Waiter;
    _changePaths : list (string * OnChangeValue) }.

(** The constructor, up to the installation of [onmessage]. *)
Definition create : t * list Effect :=
  ({| _messageId := 0; _messageQueue := ∅; _changePaths := [] |},
   [Logged "building WorkerStore"]).

(** [_getResult()]: the counter is incremented and the resolver of a new
    promise is stored under the new id; [w] is what will await it. *)
Definition _getResult (w : Waiter) (st : t) : t :=
  {| _messageId := _messageId st + 1;
     _messageQueue := <[_messageId st + 1 := w]> (_messageQueue st);
     _changePaths := _changePaths st |}.

(** [path(path, ...segments)]: the pointer is built as in the local store,
    [state] is [{}] and [value] is [[]]. *)
Definition path (input : string + Path.t) (segments : list (option string)) : Path.t :=
  let segments :=
    match input with
    | inl s => Some s :: segments
    | inr p => (Some <$> Pointer.segments (Pointer.of_string (Path.path p))) ++ segments
    end in
  let stringSegments := omap (fun segment => segment) segments in
  let hasMultipleSegments := bool_decide (1 < length stringSegments) in
  let pointer :=
    if hasMultipleSegments then Pointer.of_segments stringSegments
    else Pointer.of_string (hd "" stringSegments) in
  {| Path.path := Pointer.path pointer;
     Path.state := empty_object 0;
     Path.value := Some (empty_array 0) |}.

(** [get(path)], up to its [await]. *)
Definition get (p : Path.t) (st : t) : t * list Effect * Promise :=
  let st1 := _getResult AwaitGet st in
  (st1,
   [Posted {| Request.id := _messageId st1;
             Request.type := "get";
             Request.payload := PointerPayload (Path.path p) |}],
   Pending (_messageId st1)).

(** [_getState()]: the request is sent and its promise dropped; the call
    itself returns [undefined]. *)
Definition _getState (st : t) : t * list Effect :=
  (get (path (inl "/") []) st).1.

(** [_runOnChanges()].  Each callback of the [forEach] first calls
    [_getState] and suspends; once resumed, in the same order, it resolves
    its address against what [_getState] returned, which is
    [undefined]. *)
Definition _runOnChanges (st : t) : t * list Effect :=
  let sent :=
    fold_left (fun acc _ => let r := _getState acc.1 in (r.1, acc.2 ++ r.2))
      (_changePaths st) (st, []) in
  let r := run_changes None (_changePaths st) in
  ({| _messageId := _messageId sent.1;
      _messageQueue := _messageQueue sent.1;
      _changePaths := r.1 |},
   sent.2 ++ r.2).

(** [invalidate()]. *)
Definition invalidate (st : t) : t * list Effect :=
  let r := _runOnChanges st in
  (r.1, r.2 ++ [Emitted "invalidate"]).

(** [apply(operations, invalidate = false)], up to the return of its
    promise; the continuation given to [then] is kept with the resolver. *)
Definition apply (operations : list Operation) (invalidate_arg : option bool) (st : t)
    : t * list Effect * Promise :=
  let st1 := _getResult (ThenApply (default false invalidate_arg)) st in
  let payload := to_wire <$> operations in
  (st1,
   [Posted {| Request.id := _messageId st1;
             Request.type := "apply";
             Request.payload := OperationsPayload payload |}],
   Pending (_messageId st1)).

(** [this._worker.onmessage]: a known id has its promise resolved with
    [data.result] and its entry deleted, after which whatever awaited the
    promise runs; an unknown id is reported. *)
Definition onmessage (data : Response.t) (st : t) : t * list Effect :=
  match _messageQueue st !! Response.id data with
  | Some resolve =>
      let st1 := {| _messageId := _messageId st;
                    _messageQueue := delete (Response.id data) (_messageQueue st);
                    _changePaths := _changePaths st |} in
      match resolve with
      | AwaitGet => (st1, [Settled (Response.id data) (Response.result data)])
      | ThenApply invalidate_arg =>
          let r := if invalidate_arg then invalidate st1 else (st1, []) in
          (r.1, r.2 ++ [Settled (Response.id data) (Response.result data)])
      end
  | None => (st, [Warned (Response.id data)])
  end.

End WorkerStore.

(** ** Notions used by the statements *)

(** The address of an entry no longer resolves to its baseline: the test
    [previousValue !== newValue] of the loop succeeds. *)
Definition entry_changed (currentState : JsValue) (entry : string * OnChangeValue) : bool :=
  negb (strict_eq (previousValue entry.2)
          (Pointer.get (Pointer.of_string entry.1) currentState)).

(** The subscriber ids registered on an entry. *)
Definition subscribers (e : OnChangeValue) : list nat := callbackId <$> callbacks e.

(** How many times subscriber [i] is invoked in a trace. *)
Definition times_called (i : nat) (out : list Effect) : nat :=
  length (filter (fun j => j = i) (called_ids out)).

(** The store [st'] reached from [st] by [onChange] holds, for each of the
    paths, the value the address has in the root of [st] as baseline. *)
Definition records_live_baseline (st st' : Store.t) (paths : list Path.t) : Prop :=
  ∀ p, p ∈ paths →
    ∃ e, map_get (Path.path p) (Store._changePaths st') = Some e ∧
         previousValue e
           = Pointer.get (Pointer.of_string (Path.path p)) (Some (Store._state st)).

(** The first of the paths that names address [k]. *)
Definition first_at (k : string) (paths : list Path.t) : option Path.t :=
  List.find (fun q => bool_decide (Path.path q = k)) paths.

(** The pointer [path] builds from its arguments, in either store. *)
Definition path_pointer (input : string + Path.t) (segments : list (option string)) : Pointer.t :=
  let segments :=
    match input with
    | inl s => Some s :: segments
    | inr p => (Some <$> Pointer.segments (Pointer.of_string (Path.path p))) ++ segments
    end in
  let stringSegments := omap (fun segment => segment) segments in
  if bool_decide (1 < length stringSegments) then Pointer.of_segments stringSegments
  else Pointer.of_string (hd "" stringSegments).

(** The segments of the parent of an address. *)
Fixpoint init_segments (segs : list string) : list string :=
  match segs with
  | [] => []
  | k :: rest =>
      match rest with
      | [] => []
      | _ :: _ => k :: init_segments rest
      end
  end.

(** The operation finds the container of its slot in place: an [Add] among
    them has no intermediate container to create. *)
Definition grounded (o : Operation) (root : Value) : bool :=
  match o with
  | Add p _ =>
      bool_decide (is_Some (Pointer.walk (init_segments (Pointer.segments p)) (Some root)))
  | _ => true
  end.

(** Every operation of the batch is grounded in the root it is applied
    to. *)
Fixpoint grounded_batch (ops : list Operation) (root : Value) : bool :=
  match ops with
  | [] => true
  | o :: rest =>
      grounded o root && grounded_batch rest (Patch.step (Patch.fresh_ref root o) o root).1
  end.

(** The outcome of a slot action or of a walk, references forgotten. *)
Definition erase_result (r : option (Value * option Value)) : option (Value * option Value) :=
  (fun x : Value * option Value => (erase x.1, erase <$> x.2)) <$> r.

(** Two slot actions that agree up to references. *)
Definition slot_congruent (leaf leaf' : Patch.SlotAction) : Prop :=
  ∀ c c' k n n', erase n = erase n' →
    erase_result (leaf c k n) = erase_result (leaf' c' k n').

(** [bwd] undoes [fwd] at the slot whenever [fwd] reports [prev] as the
    former content: it gives back the container [fwd] started from, up to
    references, and what it reports satisfies [Q]. *)
Definition slot_inverse (fwd bwd : Patch.SlotAction) (prev : JsValue) (Q : JsValue → Prop)
    : Prop :=
  ∀ c c' k P P1, fwd c k P = Some (P1, prev) →
    ∃ P2 prev2, bwd c' k P1 = Some (P2, prev2) ∧ erase P2 = erase P ∧ Q prev2.

(** The root a batch leads to, and the operations undoing it. *)
Definition exec (ops : list Operation) (root : Value) : Value :=
  Patch.object (Patch.apply ops root).

Definition undo_of (ops : list Operation) (root : Value) : list Operation :=
  Patch.undoOperations (Patch.apply ops root).

(** Applying to the store the undo operations [apply] returned for a
    batch leads back to a root deeply equal to the one before the batch. *)
Definition undo_round_trip (st : Store.t) (batch : list Operation) : Prop :=
  let applied := Store.apply batch None st in
  let undone := Store.apply applied.2 None applied.1.1 in
  deep_eq (Store._state undone.1.1) (Store._state st).

(** What a client can do with a local store. *)
Inductive Action : Type :=
| DoApply (operations : list Operation) (invalidate_arg : option bool)
| DoOnChange (paths : Path.t + list Path.t) (cb : Callback)
| DoRemove (h : Store.Handle)
| DoInvalidate.

Definition perform (a : Action) (st : Store.t) : Store.t * list Effect :=
  match a with
  | DoApply operations invalidate_arg => (Store.apply operations invalidate_arg st).1
  | DoOnChange paths cb => ((Store.onChange paths cb st).1, [])
  | DoRemove h => (Store.remove h st, [])
  | DoInvalidate => Store.invalidate st
  end.

(** A sequence of actions, with the trace of the whole. *)
Fixpoint perform_all (actions : list Action) (st : Store.t) : Store.t * list Effect :=
  match actions with
  | [] => (st, [])
  | a :: rest =>
      let r := perform a st in
      let r' := perform_all rest r.1 in
      (r'.1, r.2 ++ r'.2)
  end.

(** What every store built by its own methods satisfies: an address is
    tracked once, and the registered ids are below the counter. *)
Definition store_wf (st : Store.t) : Prop :=
  NoDup (map_keys (Store._changePaths st)) ∧
  ∀ k e j, (k, e) ∈ Store._changePaths st → j ∈ subscribers e → j < Store._callbackId st.

(** Subscriber [i] was handed out, and it is registered at most on the
    addresses [K]. *)
Definition confined (i : nat) (K : list string) (st : Store.t) : Prop :=
  NoDup (map_keys (Store._changePaths st)) ∧
  i < Store._callbackId st ∧
  ∀ k e, (k, e) ∈ Store._changePaths st → i ∈ subscribers e → k ∈ K.

(** Every id registered at an address in [cp'] was registered at that
    address in [cp]. *)
Definition no_new_ids (cp cp' : list (string * OnChangeValue)) : Prop :=
  ∀ k e' i, (k, e') ∈ cp' → i ∈ subscribers e' → ∃ e, (k, e) ∈ cp ∧ i ∈ subscribers e.

(** The store with another root. *)
Definition with_state (root : Value) (st : Store.t) : Store.t :=
  {| Store._state := root;
     Store._changePaths := Store._changePaths st;
     Store._callbackId := Store._callbackId st |}.

(** An entry without the callbacks of subscriber [i]. *)
Definition strip (i : nat) (e : OnChangeValue) : OnChangeValue :=
  {| callbacks := filter (fun cb => callbackId cb ≠ i) (callbacks e);
     previousValue := previousValue e |}.

(** [strip] at the entry of key [k], when there is one. *)
Fixpoint strip_at (i : nat) (k : string) (m : list (string * OnChangeValue))
    : list (string * OnChangeValue) :=
  match m with
  | [] => []
  | (k', e) :: rest =>
      if bool_decide (k' = k) then (k', strip i e) :: rest else (k', e) :: strip_at i k rest
  end.

(** A trace made of callback invocations only. *)
Definition calls_only (out : list Effect) : Prop :=
  Forall (fun e => ∃ i cb, e = Called i cb) out.

(** The state of a pass is consistent: the ids recorded as called are the
    ids of the trace, none twice, and the trace holds nothing but calls. *)
Definition pass_ok (acc : list nat * list Effect) : Prop :=
  called_ids acc.2 = acc.1 ∧ NoDup acc.1 ∧ calls_only acc.2.

(** [_addOnChange] on the tracked addresses alone. *)
Definition add_entry (cb : Callback) (i : nat) (cp : list (string * OnChangeValue)) (p : Path.t)
    : list (string * OnChangeValue) :=
  Store._changePaths
    (Store._addOnChange p cb i
       {| Store._state := VNull; Store._changePaths := cp; Store._callbackId := 0 |}).

(** The ids awaiting an answer were all handed out by the counter. *)
Definition queue_bounded (st : WorkerStore.t) : Prop :=
  map_Forall (fun j _ => j ≤ WorkerStore._messageId st) (WorkerStore._messageQueue st).

(** The body of the [forEach] of the worker store's [_runOnChanges] up to
    its [await], entry after entry. *)
Definition send_all (entries : list (string * OnChangeValue))
    (acc : WorkerStore.t * list Effect) : WorkerStore.t * list Effect :=
  fold_left (fun acc _ => let r := WorkerStore._getState acc.1 in (r.1, acc.2 ++ r.2))
    entries acc.

(** The worker store once the entry of a request has been deleted. *)
Definition answered (i : nat) (st : WorkerStore.t) : WorkerStore.t :=
  {| WorkerStore._messageId := WorkerStore._messageId st;
     WorkerStore._messageQueue := delete i (WorkerStore._messageQueue st);
     WorkerStore._changePaths := WorkerStore._changePaths st |}.

(** ** Sample stores *)

Module Samples.

(** A callback that logs, and another one. *)
Definition log_a : Callback := 100.
Definition log_c : Callback := 200.

(** The state [{ a: { b: 1 }, c: 2 }], built by a first batch. *)
Definition filled : Store.t :=
  (Store.apply [Add (Pointer.of_string "/a") (VObj 1 {[ "b" := VNum 1 ]});
                Add (Pointer.of_string "/c") (VNum 2)] None Store.create).1.1.

Definition path_a : Path.t := Store.path (inl "a") [] filled.
Definition path_ab : Path.t := Store.path (inr path_a) [Some "b"] filled.
Definition path_c : Path.t := Store.path (inl "/c") [] filled.

(** One subscription on [/a] and [/a/b], a second one on [/c]. *)
Definition subscribed_a : Store.t * Store.Handle :=
  Store.onChange (inr [path_a; path_ab]) log_a filled.
Definition subscribed : Store.t * Store.Handle :=
  Store.onChange (inl path_c) log_c subscribed_a.1.

(** A batch with every kind of operation, on slots that exist or whose
    container does. *)
Definition batch : list Operation :=
  [Replace (Pointer.of_string "/a/b") (VNum 9);
   Add (Pointer.of_string "/a/list") (VArr 7 [VNum 1; VNum 2]);
   Add (Pointer.of_string "/a/list/1") (VStr "x");
   Remove (Pointer.of_string "/a/list/0");
   Remove (Pointer.of_string "/c");
   Replace (Pointer.of_string "/missing") VNull;
   Add (Pointer.of_string "/a/b") (VNum 3)].

(** [/a/b] becomes [5]; nothing is invalidated yet. *)
Definition edited : Store.t :=
  (Store.apply [Replace (Pointer.of_string "/a/b") (VNum 5)] None subscribed.1).1.1.

(** A path to [/a/b] built after that edit: it holds [5]. *)
Definition fresh_ab : Path.t := Store.path (inl "/a/b") [] edited.

(** [/a/b] is written with the value it already has: [/a] is a new object
    with the same content. *)
Definition rewritten : Store.t :=
  (Store.apply [Replace (Pointer.of_string "/a/b") (VNum 1)] None subscribed.1).1.1.

(** The same edit on the store without subscriptions: [path_ab], built
    before, now holds a value the root no longer has. *)
Definition moved : Store.t :=
  (Store.apply [Replace (Pointer.of_string "/a/b") (VNum 5)] None filled).1.1.

(** A worker store with two requests in flight: an [apply] under id 1
    and a [get] under id 2. *)
Definition applying : WorkerStore.t * list Effect * Promise :=
  WorkerStore.apply [Replace (Pointer.of_string "/test") (VStr "test")] (Some true)
    WorkerStore.create.1.
Definition getting : WorkerStore.t * list Effect * Promise :=
  WorkerStore.get (WorkerStore.path (inl "/test") []) applying.1.1.
Definition in_flight : WorkerStore.t := getting.1.1.

End Samples.

(** ** The rest of the local store *)

(** JavaScript truthiness: [undefined], [null], [false], [0] and [""] are
    falsy, everything else is truthy. *)
Definition truthy (v : JsValue) : bool :=
  match v with
  | None | Some VNull => false
  | Some (VBool b) => b
  | Some (VNum n) => negb (bool_decide (n = 0%Z))
  | Some (VStr s) => negb (bool_decide (s = ""))
  | Some (VArr _ _) | Some (VObj _ _) => true
  end.

(** [String(n)] for a safe integer, the range in which JavaScript prints an
    integer with all its digits. *)
Definition number_to_string (n : Z) : string := pretty n.

(** The safe integers: those strictly between [-2^53] and [2^53]. *)
Definition safe_integer (n : Z) : Prop := (- 2 ^ 53 < n < 2 ^ 53)%Z.

(** The member access [value[index]] on a truthy value, for an integer
    index: an element of an array, a character of a string, the property of
    that name of an object; numbers and booleans have no such property. *)
Definition member (v : Value) (index : Z) : JsValue :=
  match v with
  | VArr _ l => if bool_decide (0 ≤ index)%Z then l !! Z.to_nat index else None
  | VStr s =>
      if bool_decide (0 ≤ index)%Z
      then (fun c => VStr (String c EmptyString)) <$> String.get (Z.to_nat index) s
      else None
  | VObj _ m => m !! number_to_string index
  | _ => None
  end.

(** [Store.at(path, index)]: [array && array[index]] under the path string
    extended by the index. *)
Definition Store_at (p : Path.t) (index : Z) : Path.t :=
  let array := Store.get p in
  let value := if truthy array then array ≫= (fun a => member a index) else array in
  {| Path.path := Path.path p +:+ "/" +:+ number_to_string index;
     Path.state := Path.state p;
     Path.value := value |}.

(** The registrations made in a sequence of actions. *)
Fixpoint registrations (actions : list Action) : nat :=
  match actions with
  | [] => 0
  | DoOnChange _ _ :: rest => S (registrations rest)
  | _ :: rest => registrations rest
  end.



Module MoreSamples.



(** A path whose value is the array [[10, 20]]. *)
Definition path_list : Path.t :=
{| Path.path := "/list";
   Path.state := VObj 0 {[ "list" := VArr 1 [VNum 10; VNum 20] ]};
   Path.value := Some (VArr 1 [VNum 10; VNum 20]) |}.

End MoreSamples.

(** ** Runs of the worker store *)

(** What a client, or the worker by answering, can do with a worker
    store. *)
Inductive WorkerAction : Type :=
| CallGet (p : Path.t)
| CallApply (operations : list Operation) (invalidate_arg : option bool)
| CallInvalidate
| Receive (data : Response.t).

Definition worker_perform (a : WorkerAction) (st : WorkerStore.t) : WorkerStore.t * list Effect :=
  match a with
  | CallGet p => (WorkerStore.get p st).1
  | CallApply operations invalidate_arg => (WorkerStore.apply operations invalidate_arg st).1
  | CallInvalidate => WorkerStore.invalidate st
  | Receive data => WorkerStore.onmessage data st
  end.

(** A sequence of actions, with the trace of the whole. *)
Fixpoint worker_perform_all (actions : list WorkerAction) (st : WorkerStore.t)
    : WorkerStore.t * list Effect :=
  match actions with
  | [] => (st, [])
  | a :: rest =>
      let r := worker_perform a st in
      let r' := worker_perform_all rest r.1 in
      (r'.1, r.2 ++ r'.2)
  end.

(** The requests the calls of a sequence of actions stand for, numbered
    from [next] on. *)
Fixpoint requests_of (next : nat) (actions : list WorkerAction) : list Request.t :=
  match actions with
  | [] => []
  | CallGet p :: rest =>
      {| Request.id := next;
         Request.type := "get";
         Request.payload := PointerPayload (Path.path p) |} :: requests_of (S next) rest
  | CallApply operations _ :: rest =>
      {| Request.id := next;
         Request.type := "apply";
         Request.payload := OperationsPayload (to_wire <$> operations) |}
        :: requests_of (S next) rest
  | _ :: rest => requests_of next rest
  end.

(** The answers received in a sequence of actions, as id and result. *)
Definition answers_of (actions : list WorkerAction) : list (nat * JsValue) :=
  omap (fun a => match a with
                 | Receive data => Some (Response.id data, Response.result data)
                 | _ => None
                 end) actions.

(** The ids [D] were handed out and are not pending any more. *)
Definition answered_ids (D : list nat) (st : WorkerStore.t) : Prop :=
  ∀ i, i ∈ D → i ≤ WorkerStore._messageId st ∧ WorkerStore._messageQueue st !! i = None.

(** The invalidations asked for in a sequence of actions: the calls of
    [invalidate] and the calls of [apply] whose flag is set. *)
Fixpoint invalidations (actions : list Action) : nat :=
  match actions with
  | [] => 0
  | DoInvalidate :: rest => S (invalidations rest)
  | DoApply _ invalidate_arg :: rest =>
      (if default false invalidate_arg then 1 else 0) + invalidations rest
  | _ :: rest => invalidations rest
  end.

(** ** The contract of a forwarded [apply] *)

(** An operation in its wire form, in the words of sections 4.4 and 6 of
    the specification: the address is reduced to its plain pointer string,
    the kind and the value are passed through as they are. *)
Inductive reduces_to : Operation → WireOperation → Prop :=
| reduces_add p v : reduces_to (Add p v) (WireAdd (Pointer.path p) v)
| reduces_replace p v : reduces_to (Replace p v) (WireReplace (Pointer.path p) v)
| reduces_remove p : reduces_to (Remove p) (WireRemove (Pointer.path p)).

(** What section 4.4 of the specification asks of [apply] at the time of
    the call, as far as it can be observed: one request is sent and nothing
    else happens, the request carries the next identifier [next] and the
    operations of the batch in their wire form, in order, and the promise
    handed back awaits the answer to that identifier. *)
Definition forwards_apply (next : nat) (operations : list Operation)
    (out : list Effect) (promise : Promise) : Prop :=
  ∃ wire,
    Forall2 reduces_to operations wire ∧
    out = [Posted {| Request.id := next;
                     Request.type := "apply";
                     Request.payload := OperationsPayload wire |}] ∧
    promise = Pending next.

(** ** Facts on insertion-ordered maps *)

Section StringMapFacts.
Context {V : Type}.
Implicit Types (m : list (string * V)) (k : string) (v : V).

Lemma map_get_set_eq k v m : map_get k (map_set k v m) = Some v.
Proof.
  induction m as [|[k' v'] m IH]; simpl.
  - by rewrite bool_decide_true.
  - case_bool_decide as Hk; simpl.
    + by rewrite bool_decide_true.
    + by rewrite bool_decide_false.
Qed.

Lemma map_get_set_ne k k' v m : k ≠ k' → map_get k' (map_set k v m) = map_get k' m.
Proof.
  intros Hne. induction m as [|[k0 v0] m IH]; simpl.
  - by rewrite bool_decide_false.
  - case_bool_decide as Hk; simpl.
    + subst k0. by rewrite !bool_decide_false.
    + by rewrite IH.
Qed.

Lemma map_get_Some_elem k v m : map_get k m = Some v → (k, v) ∈ m.
Proof.
  induction m as [|[k' v'] m IH]; simpl; [done|].
  case_bool_decide as Hk.
  - intros [= ->]. subst k'. apply list_elem_of_here.
  - intros H. apply list_elem_of_further. auto.
Qed.

Lemma map_get_None k m : map_get k m = None ↔ k ∉ map_keys m.
Proof.
  unfold map_keys. induction m as [|[k' v'] m IH]; simpl.
  - split; [intros _; apply not_elem_of_nil | done].
  - rewrite not_elem_of_cons. case_bool_decide as Hk.
    + split; [done | intros [? _]; congruence].
    + rewrite IH. split; [intros ?; split; [congruence | done] | tauto].
Qed.

Lemma map_get_NoDup k v m : NoDup (map_keys m) → (k, v) ∈ m → map_get k m = Some v.
Proof.
  unfold map_keys. induction m as [|[k' v'] m IH]; simpl.
  - intros _ H. by apply elem_of_nil in H.
  - intros [Hnot Hnd]%NoDup_cons [[= -> ->] | Hin]%elem_of_cons.
    + by rewrite bool_decide_true.
    + rewrite bool_decide_false; [auto|].
      intros ->. apply Hnot. apply list_elem_of_fmap. by exists (k, v).
Qed.

Lemma map_set_keys k v m :
  map_keys (map_set k v m) = if bool_decide (k ∈ map_keys m) then map_keys m else map_keys m ++ [k].
Proof.
  unfold map_keys. induction m as [|[k' v'] m IH]; [done|].
  cbn [map_set]. destruct (decide (k' = k)) as [->|Hk].
  - rewrite bool_decide_true by done. cbn.
    rewrite bool_decide_true; [done | apply list_elem_of_here].
  - rewrite bool_decide_false by done. cbn [fmap list_fmap fst]. rewrite IH.
    destruct (decide (k ∈ m.*1)) as [Hin|Hin].
    + rewrite !bool_decide_true; [done | by apply list_elem_of_further | done].
    + rewrite !bool_decide_false; [done | | done].
      rewrite not_elem_of_cons. split; [congruence | done].
Qed.

Lemma map_set_NoDup k v m : NoDup (map_keys m) → NoDup (map_keys (map_set k v m)).
Proof.
  intros Hnd. rewrite map_set_keys. case_bool_decide as Hin; [done|].
  apply NoDup_app. split_and!; [done | | apply NoDup_singleton].
  intros x Hx ->%list_elem_of_singleton. done.
Qed.

Lemma map_set_elem k v m k' v' :
  (k', v') ∈ map_set k v m → (k' = k ∧ v' = v) ∨ (k', v') ∈ m.
Proof.
  induction m as [|[k0 v0] m IH]; simpl.
  - intros [= -> ->]%list_elem_of_singleton. by left.
  - case_bool_decide as Hk.
    + intros [[= -> ->] | Hin]%elem_of_cons; [by left|].
      right. by apply list_elem_of_further.
    + intros [[= -> ->] | Hin]%elem_of_cons.
      * right. apply list_elem_of_here.
      * destruct (IH Hin) as [?|?]; [by left|]. right. by apply list_elem_of_further.
Qed.
End StringMapFacts.

(** ** Facts on the change-detection loop *)

Lemma called_ids_app out out' : called_ids (out ++ out') = called_ids out ++ called_ids out'.
Proof. apply omap_app. Qed.

Lemma emitted_app out out' : emitted (out ++ out') = emitted out ++ emitted out'.
Proof. apply omap_app. Qed.

Lemma posted_app out out' : posted (out ++ out') = posted out ++ posted out'.
Proof. apply omap_app. Qed.

Lemma settled_app out out' : settled (out ++ out') = settled out ++ settled out'.
Proof. apply omap_app. Qed.

Lemma calls_only_quiet out :
  calls_only out → emitted out = [] ∧ posted out = [] ∧ settled out = [].
Proof.
  induction 1 as [|e out (i & cb & ->) _ IH]; [done|]. simpl. exact IH.
Qed.

Lemma pass_ok_nil : pass_ok ([], []).
Proof. split_and!; [done | apply NoDup_nil_2 | apply Forall_nil_2]. Qed.

Lemma fire_ok acc item : pass_ok acc → pass_ok (fire acc item).
Proof.
  intros (Hids & Hnd & Hcalls). unfold fire. case_bool_decide as Hin; [done|].
  split_and!; simpl.
  - rewrite called_ids_app, Hids. done.
  - apply NoDup_app. split_and!; [done | | apply NoDup_singleton].
    intros x Hx ->%list_elem_of_singleton. done.
  - apply Forall_app. split; [done|]. apply Forall_singleton. eauto.
Qed.

Lemma fire_mono acc item i : i ∈ acc.1 → i ∈ (fire acc item).1.
Proof.
  intros Hi. unfold fire. case_bool_decide; [done|]. simpl.
  apply elem_of_app. by left.
Qed.

Lemma fire_self acc item : callbackId item ∈ (fire acc item).1.
Proof.
  unfold fire. case_bool_decide; [done|]. simpl.
  apply elem_of_app. right. apply list_elem_of_here.
Qed.

Lemma fire_from acc item i : i ∈ (fire acc item).1 → i ∈ acc.1 ∨ i = callbackId item.
Proof.
  unfold fire. case_bool_decide; [by left|]. simpl.
  intros [?| ->%list_elem_of_singleton]%elem_of_app; [by left | by right].
Qed.

Lemma fire_all_ok items acc : pass_ok acc → pass_ok (fold_left fire items acc).
Proof.
  revert acc. induction items as [|item items IH]; intros acc Hok; simpl; [done|].
  apply IH. by apply fire_ok.
Qed.

Lemma fire_all_mono items acc i : i ∈ acc.1 → i ∈ (fold_left fire items acc).1.
Proof.
  revert acc. induction items as [|item items IH]; intros acc Hi; simpl; [done|].
  apply IH. by apply fire_mono.
Qed.

Lemma fire_all_self items acc item :
  item ∈ items → callbackId item ∈ (fold_left fire items acc).1.
Proof.
  revert acc. induction items as [|item' items IH]; intros acc; simpl.
  - intros H. by apply elem_of_nil in H.
  - intros [->|Hin]%elem_of_cons; [|by apply IH].
    apply fire_all_mono, fire_self.
Qed.

Lemma fire_all_from items acc i :
  i ∈ (fold_left fire items acc).1 → i ∈ acc.1 ∨ i ∈ callbackId <$> items.
Proof.
  revert acc. induction items as [|item items IH]; intros acc; simpl; [by left|].
  intros [[?| ->]%fire_from | Hin]%IH.
  - by left.
  - right. apply list_elem_of_here.
  - right. by apply list_elem_of_further.
Qed.

Lemma visit_ok cur acc entry : pass_ok acc.2 → pass_ok (visit cur acc entry).2.
Proof.
  intros Hok. unfold visit. destruct (strict_eq _ _); [done|]. simpl.
  by apply fire_all_ok.
Qed.

Lemma visit_mono cur acc entry i : i ∈ acc.2.1 → i ∈ (visit cur acc entry).2.1.
Proof.
  intros Hi. unfold visit. destruct (strict_eq _ _); [done|]. simpl.
  by apply fire_all_mono.
Qed.

Lemma visit_changed cur acc entry i :
  entry_changed cur entry = true → i ∈ subscribers entry.2 →
  i ∈ (visit cur acc entry).2.1.
Proof.
  unfold entry_changed, visit, subscribers.
  intros Hch (item & -> & Hin)%list_elem_of_fmap.
  destruct (strict_eq _ _); [done|]. simpl. by apply fire_all_self.
Qed.

Lemma visit_from cur acc entry i :
  i ∈ (visit cur acc entry).2.1 →
  i ∈ acc.2.1 ∨ (entry_changed cur entry = true ∧ i ∈ subscribers entry.2).
Proof.
  unfold entry_changed, visit, subscribers.
  destruct (strict_eq _ _); simpl; [by left|].
  intros [?|?]%fire_all_from; [by left | by right].
Qed.

Lemma visit_all_ok cur entries acc :
  pass_ok acc.2 → pass_ok (fold_left (visit cur) entries acc).2.
Proof.
  revert acc. induction entries as [|entry entries IH]; intros acc Hok; simpl; [done|].
  apply IH. by apply visit_ok.
Qed.

Lemma visit_all_mono cur entries acc i :
  i ∈ acc.2.1 → i ∈ (fold_left (visit cur) entries acc).2.1.
Proof.
  revert acc. induction entries as [|entry entries IH]; intros acc Hi; simpl; [done|].
  apply IH. by apply visit_mono.
Qed.

Lemma visit_all_changed cur entries acc entry i :
  entry ∈ entries → entry_changed cur entry = true → i ∈ subscribers entry.2 →
  i ∈ (fold_left (visit cur) entries acc).2.1.
Proof.
  revert acc. induction entries as [|entry' entries IH]; intros acc; simpl.
  - intros H. by apply elem_of_nil in H.
  - intros [->|Hin]%elem_of_cons Hch Hi; [|by apply IH].
    by apply visit_all_mono, visit_changed.
Qed.

Lemma visit_all_from cur entries acc i :
  i ∈ (fold_left (visit cur) entries acc).2.1 →
  i ∈ acc.2.1 ∨ ∃ entry, entry ∈ entries ∧ entry_changed cur entry = true
                          ∧ i ∈ subscribers entry.2.
Proof.
  revert acc. induction entries as [|entry entries IH]; intros acc; simpl; [by left|].
  intros [[?|[? ?]]%visit_from | (entry' & Hin & ? & ?)]%IH.
  - by left.
  - right. exists entry. split_and!; [apply list_elem_of_here | done | done].
  - right. exists entry'. split_and!; [by apply list_elem_of_further | done | done].
Qed.

Lemma run_changes_ok cur cp :
  let out := (run_changes cur cp).2 in
  NoDup (called_ids out) ∧ calls_only out.
Proof.
  simpl. unfold run_changes. simpl.
  destruct (visit_all_ok cur cp (cp, ([], [])) pass_ok_nil) as (Hids & Hnd & Hcalls).
  rewrite Hids. done.
Qed.

Lemma run_changes_called cur cp i :
  i ∈ called_ids (run_changes cur cp).2 ↔
  ∃ entry, entry ∈ cp ∧ entry_changed cur entry = true ∧ i ∈ subscribers entry.2.
Proof.
  unfold run_changes. simpl.
  destruct (visit_all_ok cur cp (cp, ([], [])) pass_ok_nil) as (Hids & _ & _).
  rewrite Hids. split.
  - intros [Hin | ?]%visit_all_from; [|done]. by apply elem_of_nil in Hin.
  - intros (entry & ? & ? & ?). by eapply visit_all_changed.
Qed.

Lemma filter_eq_absent (i : nat) (l : list nat) : i ∉ l → filter (fun j => j = i) l = [].
Proof.
  induction l as [|j l IH]; [done|].
  intros [Hne Hl]%not_elem_of_cons. rewrite filter_cons_False by congruence. auto.
Qed.

Lemma times_called_NoDup i out :
  NoDup (called_ids out) →
  times_called i out ≤ 1 ∧ (i ∈ called_ids out → times_called i out = 1).
Proof.
  unfold times_called. generalize (called_ids out) as l. clear out.
  induction l as [|j l IH]; intros Hnd.
  - split; [simpl; lia | intros H; by apply elem_of_nil in H].
  - apply NoDup_cons in Hnd as [Hj Hnd]. destruct (IH Hnd) as [Hle Heq].
    destruct (decide (j = i)) as [->|Hne].
    + rewrite filter_cons_True by done. rewrite filter_eq_absent by done.
      split; [simpl; lia | done].
    + rewrite filter_cons_False by done.
      split; [done|]. intros [->|Hin]%elem_of_cons; [done | auto].
Qed.

(** ** The local store: notification *)

Lemma invalidate_called st :
  called_ids (Store.invalidate st).2 = called_ids (Store._runOnChanges st).2.
Proof.
  unfold Store.invalidate. simpl. rewrite called_ids_app. simpl. by rewrite app_nil_r.
Qed.

(** C2. Within one call of [invalidate], a subscriber id is invoked at most
    once, whatever the number of its addresses that changed; when it is
    registered on two addresses that both changed, it is invoked exactly
    once. *)
Theorem subscriber_fires_once_per_invalidate (st : Store.t) (i : nat) :
  times_called i (Store.invalidate st).2 ≤ 1 ∧
  ∀ p q e1 e2,
    p ≠ q →
    map_get p (Store._changePaths st) = Some e1 →
    map_get q (Store._changePaths st) = Some e2 →
    i ∈ subscribers e1 → i ∈ subscribers e2 →
    entry_changed (Some (Store._state st)) (p, e1) = true →
    entry_changed (Some (Store._state st)) (q, e2) = true →
    times_called i (Store.invalidate st).2 = 1.
Proof.
  pose proof (run_changes_ok (Some (Store._state st)) (Store._changePaths st)) as [Hnd _].
  assert (NoDup (called_ids (Store.invalidate st).2)) as Hnd'.
  { by rewrite invalidate_called. }
  destruct (times_called_NoDup i _ Hnd') as [Hle Hone].
  split; [done|].
  intros p q e1 e2 _ Hp _ Hi _ Hch _. apply Hone.
  rewrite invalidate_called. apply run_changes_called.
  exists (p, e1). split_and!; [by apply map_get_Some_elem | done | done].
Qed.

Lemma subscriber_fires_once_per_invalidate_witness :
  times_called 0 (Store.invalidate Samples.edited).2 = 1.
Proof.
  destruct (subscriber_fires_once_per_invalidate Samples.edited 0) as [_ H].
  apply (H "/a" "/a/b"
           {| callbacks := [{| callbackId := 0; callback := Samples.log_a |}];
              previousValue := Some (VObj 1 {[ "b" := VNum 1 ]}) |}
           {| callbacks := [{| callbackId := 0; callback := Samples.log_a |}];
              previousValue := Some (VNum 1) |}).
  - discriminate.
  - reflexivity.
  - reflexivity.
  - apply list_elem_of_here.
  - apply list_elem_of_here.
  - reflexivity.
  - reflexivity.
Defined.

(** C5. [apply] with [invalidate] left out, or false, invokes no callback
    and emits no event: the root becomes the patch result, the undo
    operations are returned, and the tracked addresses, their baselines and
    callbacks and the id counter stay as they were. *)
Theorem apply_without_invalidate_is_silent (operations : list Operation) (st : Store.t) :
  let patchResult := Patch.apply operations (Store._state st) in
  let st' := {| Store._state := Patch.object patchResult;
                Store._changePaths := Store._changePaths st;
                Store._callbackId := Store._callbackId st |} in
  Store.apply operations None st = (st', [], Patch.undoOperations patchResult) ∧
  Store.apply operations (Some false) st = (st', [], Patch.undoOperations patchResult).
Proof. done. Qed.

(** C6. Every [invalidate] emits exactly one event, of type [invalidate],
    after the change-detection pass, whose own trace holds callback
    invocations only, be there any or none. *)
Theorem invalidate_emits_one_event (st : Store.t) :
  (Store.invalidate st).2 = (Store._runOnChanges st).2 ++ [Emitted "invalidate"] ∧
  calls_only (Store._runOnChanges st).2 ∧
  emitted (Store.invalidate st).2 = ["invalidate"].
Proof.
  pose proof (run_changes_ok (Some (Store._state st)) (Store._changePaths st)) as [_ Hcalls].
  assert ((Store.invalidate st).2 = (Store._runOnChanges st).2 ++ [Emitted "invalidate"])
    as Heq by done.
  split_and!; [done | done |].
  rewrite Heq, emitted_app.
  change (Store._runOnChanges st).2
    with (run_changes (Some (Store._state st)) (Store._changePaths st)).2.
  apply calls_only_quiet in Hcalls as (-> & _ & _). done.
Qed.

(** ** The local store: baselines *)

Lemma visit_all_get_other cur entries acc k :
  k ∉ map_keys entries →
  map_get k (fold_left (visit cur) entries acc).1 = map_get k acc.1.
Proof.
  unfold map_keys.
  revert acc. induction entries as [|[k' e'] entries IH]; intros acc; simpl; [done|].
  intros [Hne Hnot]%not_elem_of_cons. rewrite IH by done.
  unfold visit. simpl. destruct (strict_eq _ _); [done|]. simpl.
  by apply map_get_set_ne.
Qed.

Lemma visit_all_get cur entries acc k e :
  NoDup (map_keys entries) → (k, e) ∈ entries →
  map_get k (fold_left (visit cur) entries acc).1 =
    if entry_changed cur (k, e)
    then Some {| callbacks := callbacks e;
                 previousValue := Pointer.get (Pointer.of_string k) cur |}
    else map_get k acc.1.
Proof.
  unfold map_keys.
  revert acc. induction entries as [|[k' e'] entries IH]; intros acc; simpl.
  - intros _ H. by apply elem_of_nil in H.
  - intros [Hnot Hnd]%NoDup_cons [[= <- <-] | Hin]%elem_of_cons.
    + rewrite visit_all_get_other by done.
      unfold visit, entry_changed. simpl. destruct (strict_eq _ _); simpl; [done|].
      apply map_get_set_eq.
    + rewrite (IH _ Hnd Hin). destruct (entry_changed cur (k, e)); [done|].
      assert (k' ≠ k) as Hne.
      { intros ->. apply Hnot. apply list_elem_of_fmap. by exists (k, e). }
      unfold visit. simpl. destruct (strict_eq _ _); [done|]. simpl.
      by apply map_get_set_ne.
Qed.

(** C4. Change detection compares a tracked address with its baseline by
    identity: when the value now at the address is deeply equal to the
    baseline but is another object, [invalidate] takes the address as
    changed, stores the new value as baseline and invokes every subscriber of
    the address. *)
Theorem change_detection_is_by_identity (st : Store.t) (p : string) (e : OnChangeValue) :
  let newValue := Pointer.get (Pointer.of_string p) (Some (Store._state st)) in
  NoDup (map_keys (Store._changePaths st)) →
  map_get p (Store._changePaths st) = Some e →
  deep_eq_js (previousValue e) newValue →
  strict_eq (previousValue e) newValue = false →
  map_get p (Store._changePaths (Store.invalidate st).1)
    = Some {| callbacks := callbacks e; previousValue := newValue |} ∧
  ∀ i, i ∈ subscribers e → times_called i (Store.invalidate st).2 = 1.
Proof.
  intros newValue Hnd Hget _ Hneq.
  assert (entry_changed (Some (Store._state st)) (p, e) = true) as Hch.
  { unfold entry_changed. simpl. fold newValue. by rewrite Hneq. }
  apply map_get_Some_elem in Hget as Hin. split.
  - unfold Store.invalidate, Store._runOnChanges, run_changes. simpl.
    rewrite (visit_all_get _ _ _ p e Hnd Hin), Hch. done.
  - intros i Hi.
    pose proof (run_changes_ok (Some (Store._state st)) (Store._changePaths st)) as [Hnd' _].
    apply times_called_NoDup; rewrite invalidate_called; [done|].
    apply run_changes_called. by exists (p, e).
Qed.

Lemma change_detection_is_by_identity_witness :
  map_get "/a" (Store._changePaths (Store.invalidate Samples.rewritten).1)
    = Some {| callbacks := [{| callbackId := 0; callback := Samples.log_a |}];
              previousValue := Some (VObj 5 {[ "b" := VNum 1 ]}) |} ∧
  times_called 0 (Store.invalidate Samples.rewritten).2 = 1.
Proof.
  destruct (change_detection_is_by_identity Samples.rewritten "/a"
              {| callbacks := [{| callbackId := 0; callback := Samples.log_a |}];
                 previousValue := Some (VObj 1 {[ "b" := VNum 1 ]}) |}) as [H1 H2].
  - apply (bool_decide_unpack _). reflexivity.
  - reflexivity.
  - reflexivity.
  - reflexivity.
  - split; [exact H1 | apply H2, list_elem_of_here].
Defined.

(** ** The local store: registration *)

Lemma addOnChange_all ps cb i st :
  fold_left (fun s p => Store._addOnChange p cb i s) ps st =
    {| Store._state := Store._state st;
       Store._changePaths := fold_left (add_entry cb i) ps (Store._changePaths st);
       Store._callbackId := Store._callbackId st |}.
Proof.
  revert st. induction ps as [|p ps IH]; intros st; simpl; [by destruct st|].
  by rewrite IH.
Qed.

Lemma add_entry_known cb i ps cp k e0 :
  map_get k cp = Some e0 →
  ∃ e, map_get k (fold_left (add_entry cb i) ps cp) = Some e ∧
       previousValue e = previousValue e0 ∧
       (∀ item, item ∈ callbacks e0 → item ∈ callbacks e) ∧
       (is_Some (first_at k ps) → {| callbackId := i; callback := cb |} ∈ callbacks e).
Proof.
  revert cp e0. induction ps as [|q ps IH]; intros cp e0 Hget; simpl.
  - exists e0. split_and!; [done | done | done |]. by intros [? [=]].
  - unfold first_at. simpl. destruct (decide (Path.path q = k)) as [<-|Hne].
    + rewrite bool_decide_true by done.
      edestruct (IH (add_entry cb i cp q)) as (e & He & Hprev & Hcbs & _).
      { unfold add_entry, Store._addOnChange. simpl. apply map_get_set_eq. }
      exists e. rewrite Hget in *. simpl in *.
      split_and!; [done | done | |].
      * intros item Hitem. apply Hcbs, elem_of_app. by left.
      * intros _. apply Hcbs, elem_of_app. right. apply list_elem_of_here.
    + rewrite bool_decide_false by done.
      apply (IH (add_entry cb i cp q) e0).
      unfold add_entry, Store._addOnChange. simpl. by rewrite map_get_set_ne.
Qed.

Lemma add_entry_new cb i ps cp k q0 :
  map_get k cp = None → first_at k ps = Some q0 →
  ∃ e, map_get k (fold_left (add_entry cb i) ps cp) = Some e ∧
       previousValue e = Path.value q0 ∧
       {| callbackId := i; callback := cb |} ∈ callbacks e.
Proof.
  revert cp. induction ps as [|q ps IH]; intros cp Hget; [done|].
  unfold first_at. simpl. destruct (decide (Path.path q = k)) as [<-|Hne].
  - rewrite bool_decide_true by done. intros [= <-].
    edestruct (add_entry_known cb i ps (add_entry cb i cp q)) as (e & He & Hprev & Hcbs & _).
    { unfold add_entry, Store._addOnChange. simpl. apply map_get_set_eq. }
    exists e. rewrite Hget in *. simpl in *.
    split_and!; [done | done |]. apply Hcbs, list_elem_of_here.
  - rewrite bool_decide_false by done. intros Hfirst.
    apply (IH (add_entry cb i cp q)); [|done].
    unfold add_entry, Store._addOnChange. simpl. by rewrite map_get_set_ne.
Qed.

Lemma first_at_elem (p : Path.t) ps : p ∈ ps → is_Some (first_at (Path.path p) ps).
Proof.
  induction ps as [|q ps IH]; [intros H; by apply elem_of_nil in H|].
  unfold first_at. simpl. intros [->|Hin]%elem_of_cons.
  - rewrite bool_decide_true by done. eauto.
  - case_bool_decide; [eauto | by apply IH].
Qed.

(** C7, the claim as it stands fails, in two ways.  A path built before an
    edit still holds the value of that time, and registering it records that
    value, not the one the address has in the live root.  And an address that
    is tracked already keeps the baseline it has, whatever the root holds
    when a further callback is registered on it. *)
Lemma onChange_baseline_counterexample :
  ¬ records_live_baseline Samples.moved
      (Store.onChange (inl Samples.path_ab) Samples.log_a Samples.moved).1
      [Samples.path_ab] ∧
  ¬ records_live_baseline Samples.edited
      (Store.onChange (inl Samples.fresh_ab) Samples.log_c Samples.edited).1
      [Samples.fresh_ab].
Proof.
  split.
  - intros H. destruct (H Samples.path_ab) as (e & Hget & Hprev).
    + apply list_elem_of_here.
    + vm_compute in Hget. injection Hget as <-. vm_compute in Hprev. discriminate.
  - intros H. destruct (H Samples.fresh_ab) as (e & Hget & Hprev).
    + apply list_elem_of_here.
    + vm_compute in Hget. injection Hget as <-. vm_compute in Hprev. discriminate.
Qed.

(** C7, amended. Every [onChange] registers the callback under the id the
    counter holds, the same for every address of the call, and increments the
    counter, so that the next call has another id.  The baseline of an
    address that was already tracked is left as it was; for a new address it
    is the value held by the first path of the call with that address. *)
Theorem onChange_registers_fresh_id
    (st : Store.t) (paths : Path.t + list Path.t) (cb : Callback) :
  let ps := match paths with inl p => [p] | inr ps => ps end in
  let r := Store.onChange paths cb st in
  Store.handle_callbackId r.2 = Store._callbackId st ∧
  Store.handle_paths r.2 = ps ∧
  Store._callbackId r.1 = Store._callbackId st + 1 ∧
  (∀ paths' cb',
     Store.handle_callbackId (Store.onChange paths' cb' r.1).2
       ≠ Store.handle_callbackId r.2) ∧
  ∀ p, p ∈ ps →
    ∃ e, map_get (Path.path p) (Store._changePaths r.1) = Some e ∧
         {| callbackId := Store._callbackId st; callback := cb |} ∈ callbacks e ∧
         previousValue e =
           match map_get (Path.path p) (Store._changePaths st) with
           | Some known => previousValue known
           | None => first_at (Path.path p) ps ≫= Store.get
           end.
Proof.
  intros ps r. unfold r, Store.onChange. fold ps. rewrite addOnChange_all. simpl.
  split_and!; [done | done | done | intros _ _; lia |].
  intros p Hp. pose proof (first_at_elem p ps Hp) as Hfirst.
  destruct (map_get (Path.path p) (Store._changePaths st)) as [known|] eqn:Hget.
  - destruct (add_entry_known cb (Store._callbackId st) ps _ _ _ Hget)
      as (e & He & Hprev & _ & Hin).
    exists e. auto.
  - destruct Hfirst as [q0 Hq0].
    destruct (add_entry_new cb (Store._callbackId st) ps _ _ _ Hget Hq0)
      as (e & He & Hprev & Hin).
    exists e. rewrite Hq0. auto.
Qed.

Lemma onChange_registers_fresh_id_witness :
  ∃ e, map_get "/a/b"
         (Store._changePaths
            (Store.onChange (inl Samples.path_ab) Samples.log_a Samples.moved).1) = Some e ∧
       {| callbackId := 0; callback := Samples.log_a |} ∈ callbacks e ∧
       previousValue e = Some (VNum 1).
Proof.
  destruct (onChange_registers_fresh_id Samples.moved (inl Samples.path_ab) Samples.log_a)
    as (_ & _ & _ & _ & H).
  apply (H Samples.path_ab). apply list_elem_of_here.
Defined.

(** ** The local store: removal of a subscription *)

Lemma remove_at_strip i cp p : Store.remove_at i cp p = strip_at i (Path.path p) cp.
Proof.
  unfold Store.remove_at. induction cp as [|[k' e] cp IH]; simpl; [done|].
  destruct (decide (k' = Path.path p)) as [->|Hne].
  - by rewrite bool_decide_true by done.
  - rewrite (bool_decide_false (k' = Path.path p)) by done. rewrite <- IH.
    by destruct (map_get (Path.path p) cp).
Qed.

Lemma remove_strip h st :
  Store._changePaths (Store.remove h st) =
    fold_left (fun cp k => strip_at (Store.handle_callbackId h) k cp)
      (Path.path <$> Store.handle_paths h) (Store._changePaths st).
Proof.
  unfold Store.remove. simpl.
  generalize (Store._changePaths st) as cp.
  induction (Store.handle_paths h) as [|p ps IH]; intros cp; simpl; [done|].
  by rewrite IH, remove_at_strip.
Qed.

Lemma strip_strip i e : strip i (strip i e) = strip i e.
Proof.
  unfold strip. simpl. f_equal.
  induction (callbacks e) as [|cb l IH]; [done|].
  destruct (decide (callbackId cb ≠ i)) as [Hne|Heq].
  - rewrite !filter_cons_True by done. by rewrite IH.
  - by rewrite filter_cons_False.
Qed.

Lemma strip_subscribers i e j : j ∈ subscribers (strip i e) ↔ j ∈ subscribers e ∧ j ≠ i.
Proof.
  unfold subscribers, strip. simpl. rewrite !list_elem_of_fmap. split.
  - intros (cb & -> & [Hne Hin]%list_elem_of_filter). eauto.
  - intros [(cb & -> & Hin) Hne]. exists cb. split; [done|].
    by apply list_elem_of_filter.
Qed.

Lemma strip_at_idem i k m : strip_at i k (strip_at i k m) = strip_at i k m.
Proof.
  induction m as [|[k' e] m IH]; simpl; [done|].
  destruct (decide (k' = k)) as [->|Hne].
  - rewrite bool_decide_true by done. simpl.
    rewrite bool_decide_true by done. by rewrite strip_strip.
  - rewrite bool_decide_false by done. simpl.
    rewrite bool_decide_false by done. by rewrite IH.
Qed.

Lemma strip_at_comm i k k' m :
  strip_at i k (strip_at i k' m) = strip_at i k' (strip_at i k m).
Proof.
  destruct (decide (k = k')) as [->|Hkk]; [done|].
  induction m as [|[k0 e] m IH]; simpl; [done|].
  destruct (decide (k0 = k)) as [Hk|Hk], (decide (k0 = k')) as [Hk'|Hk'].
  - congruence.
  - rewrite (bool_decide_true (k0 = k)), (bool_decide_false (k0 = k')) by done. simpl.
    by rewrite (bool_decide_true (k0 = k)), (bool_decide_false (k0 = k')) by done.
  - rewrite (bool_decide_false (k0 = k)), (bool_decide_true (k0 = k')) by done. simpl.
    by rewrite (bool_decide_false (k0 = k)), (bool_decide_true (k0 = k')) by done.
  - rewrite (bool_decide_false (k0 = k)), (bool_decide_false (k0 = k')) by done. simpl.
    rewrite (bool_decide_false (k0 = k)), (bool_decide_false (k0 = k')) by done.
    by rewrite IH.
Qed.

Lemma strip_all_comm i k ks m :
  strip_at i k (fold_left (fun cp k => strip_at i k cp) ks m) =
    fold_left (fun cp k => strip_at i k cp) ks (strip_at i k m).
Proof.
  revert m. induction ks as [|k' ks IH]; intros m; simpl; [done|].
  by rewrite IH, strip_at_comm.
Qed.

Lemma strip_all_absorb i k ks m :
  k ∈ ks →
  strip_at i k (fold_left (fun cp k => strip_at i k cp) ks m) =
    fold_left (fun cp k => strip_at i k cp) ks m.
Proof.
  revert m. induction ks as [|k' ks IH]; intros m; simpl.
  - intros H. by apply elem_of_nil in H.
  - intros [->|Hin]%elem_of_cons; [|by apply IH].
    by rewrite strip_all_comm, strip_at_idem.
Qed.

Lemma strip_all_fixed i ks m :
  (∀ k, k ∈ ks → strip_at i k m = m) →
  fold_left (fun cp k => strip_at i k cp) ks m = m.
Proof.
  induction ks as [|k ks IH]; intros Hfix; simpl; [done|].
  rewrite Hfix by apply list_elem_of_here.
  apply IH. intros k' Hk'. apply Hfix. by apply list_elem_of_further.
Qed.

Lemma remove_idempotent h st : Store.remove h (Store.remove h st) = Store.remove h st.
Proof.
  assert (Store._changePaths (Store.remove h (Store.remove h st))
          = Store._changePaths (Store.remove h st)) as Hcp.
  { rewrite (remove_strip h (Store.remove h st)), (remove_strip h st).
    apply strip_all_fixed. intros k Hk. by apply strip_all_absorb. }
  unfold Store.remove in *. simpl in *. by rewrite Hcp.
Qed.

Lemma strip_at_keys i k m : map_keys (strip_at i k m) = map_keys m.
Proof.
  unfold map_keys. induction m as [|[k' e] m IH]; simpl; [done|].
  case_bool_decide; simpl; [done | by f_equal].
Qed.

Lemma strip_at_get i k m k' :
  map_get k' (strip_at i k m) =
    if bool_decide (k = k') then strip i <$> map_get k' m else map_get k' m.
Proof.
  induction m as [|[k0 e] m IH]; simpl; [by case_bool_decide|].
  destruct (decide (k0 = k)) as [->|Hne].
  - rewrite bool_decide_true by done. simpl.
    destruct (decide (k = k')) as [->|Hkk].
    + by rewrite !bool_decide_true.
    + by rewrite !bool_decide_false.
  - rewrite bool_decide_false by done. simpl. rewrite IH.
    destruct (decide (k0 = k')) as [->|Hk0].
    + rewrite bool_decide_true by done. by rewrite bool_decide_false.
    + by rewrite (bool_decide_false (k0 = k')).
Qed.

Lemma strip_all_keys i ks m :
  map_keys (fold_left (fun cp k => strip_at i k cp) ks m) = map_keys m.
Proof.
  revert m. induction ks as [|k ks IH]; intros m; simpl; [done|].
  by rewrite IH, strip_at_keys.
Qed.

Lemma strip_all_get i ks m k :
  map_get k (fold_left (fun cp k => strip_at i k cp) ks m) =
    if bool_decide (k ∈ ks) then strip i <$> map_get k m else map_get k m.
Proof.
  revert m. induction ks as [|k' ks IH]; intros m; simpl; [done|].
  rewrite IH, strip_at_get.
  destruct (decide (k' = k)) as [->|Hne].
  - rewrite (bool_decide_true (k = k)) by done.
    rewrite (bool_decide_true (k ∈ k :: ks)) by apply list_elem_of_here.
    case_bool_decide; [|done].
    destruct (map_get k m); simpl; [|done]. by rewrite strip_strip.
  - rewrite (bool_decide_false (k' = k)) by done.
    destruct (decide (k ∈ ks)) as [Hin|Hin].
    + rewrite !bool_decide_true; [done | by apply list_elem_of_further | done].
    + rewrite !bool_decide_false; [done | | done].
      rewrite not_elem_of_cons. split; [congruence | done].
Qed.

Lemma no_new_ids_refl cp : no_new_ids cp cp.
Proof. intros k e i ? ?. eauto. Qed.

Lemma no_new_ids_trans cp1 cp2 cp3 :
  no_new_ids cp1 cp2 → no_new_ids cp2 cp3 → no_new_ids cp1 cp3.
Proof.
  intros H12 H23 k e3 i Hin Hi.
  destruct (H23 k e3 i Hin Hi) as (e2 & Hin2 & Hi2). eauto.
Qed.

Lemma visit_all_no_new cur cp entries acc :
  (∀ entry, entry ∈ entries → entry ∈ cp) →
  no_new_ids cp acc.1 →
  no_new_ids cp (fold_left (visit cur) entries acc).1.
Proof.
  revert acc. induction entries as [|[k e] entries IH]; intros acc Hsub Hacc; simpl; [done|].
  apply IH.
  - intros entry Hin. apply Hsub. by apply list_elem_of_further.
  - unfold visit. simpl. destruct (strict_eq _ _); [done|]. simpl.
    intros k' e' i [[-> ->] | Hin]%map_set_elem Hi.
    + exists e. split; [apply Hsub, list_elem_of_here | done].
    + by apply (Hacc k' e' i).
Qed.

Lemma run_changes_no_new cur cp : no_new_ids cp (run_changes cur cp).1.
Proof.
  unfold run_changes. simpl. apply visit_all_no_new; [done | apply no_new_ids_refl].
Qed.

Lemma visit_all_NoDup cur entries acc :
  NoDup (map_keys acc.1) → NoDup (map_keys (fold_left (visit cur) entries acc).1).
Proof.
  revert acc. induction entries as [|entry entries IH]; intros acc Hnd; simpl; [done|].
  apply IH. unfold visit. destruct (strict_eq _ _); [done|]. simpl.
  by apply map_set_NoDup.
Qed.

Lemma run_changes_NoDup cur cp :
  NoDup (map_keys cp) → NoDup (map_keys (run_changes cur cp).1).
Proof. intros Hnd. unfold run_changes. simpl. by apply visit_all_NoDup. Qed.

Lemma strip_at_no_new i k m : no_new_ids m (strip_at i k m).
Proof.
  induction m as [|[k0 e] m IH]; simpl; [apply no_new_ids_refl|].
  case_bool_decide as Hk.
  - intros k' e' j [[= -> ->] | Hin]%elem_of_cons Hj.
    + apply strip_subscribers in Hj as [Hj _].
      exists e. split; [apply list_elem_of_here | done].
    + exists e'. split; [by apply list_elem_of_further | done].
  - intros k' e' j [[= -> ->] | Hin]%elem_of_cons Hj.
    + exists e. split; [apply list_elem_of_here | done].
    + destruct (IH k' e' j Hin Hj) as (e0 & Hin0 & Hj0).
      exists e0. split; [by apply list_elem_of_further | done].
Qed.

Lemma strip_all_no_new i ks m :
  no_new_ids m (fold_left (fun cp k => strip_at i k cp) ks m).
Proof.
  revert m. induction ks as [|k ks IH]; intros m; simpl; [apply no_new_ids_refl|].
  eapply no_new_ids_trans; [apply (strip_at_no_new i k) | apply IH].
Qed.

(** Where the ids of the entries come from after [_addOnChange]. *)
Lemma add_entry_ids cb j cp p k e' i :
  (k, e') ∈ add_entry cb j cp p → i ∈ subscribers e' →
  (i = j ∧ k = Path.path p) ∨ ∃ e, (k, e) ∈ cp ∧ i ∈ subscribers e.
Proof.
  unfold add_entry, Store._addOnChange. simpl.
  intros [[-> ->] | Hin]%map_set_elem; [|by eauto].
  unfold subscribers. simpl. rewrite fmap_app.
  intros [Hi | ->%list_elem_of_singleton]%elem_of_app; [|by left].
  destruct (map_get (Path.path p) cp) as [known|] eqn:Hget.
  - right. exists known. split; [by apply map_get_Some_elem | done].
  - by apply elem_of_nil in Hi.
Qed.

Lemma add_entry_all_ids cb j ps cp k e' i :
  (k, e') ∈ fold_left (add_entry cb j) ps cp → i ∈ subscribers e' →
  (i = j ∧ k ∈ Path.path <$> ps) ∨ ∃ e, (k, e) ∈ cp ∧ i ∈ subscribers e.
Proof.
  revert cp. induction ps as [|p ps IH]; intros cp; simpl; [by eauto|].
  intros Hin Hi. destruct (IH _ Hin Hi) as [[-> Hk] | (e & Hin' & Hi')].
  - left. split; [done | by apply list_elem_of_further].
  - destruct (add_entry_ids _ _ _ _ _ _ _ Hin' Hi') as [[-> ->] | ?]; [|by right].
    left. split; [done | apply list_elem_of_here].
Qed.

Lemma add_entry_all_NoDup cb j ps cp :
  NoDup (map_keys cp) → NoDup (map_keys (fold_left (add_entry cb j) ps cp)).
Proof.
  revert cp. induction ps as [|p ps IH]; intros cp Hnd; simpl; [done|].
  apply IH. unfold add_entry, Store._addOnChange. simpl. by apply map_set_NoDup.
Qed.

Lemma onChange_confined st paths cb :
  store_wf st →
  confined (Store._callbackId st)
    (Path.path <$> Store.handle_paths (Store.onChange paths cb st).2)
    (Store.onChange paths cb st).1.
Proof.
  intros [Hnd Hbelow]. unfold Store.onChange. rewrite addOnChange_all. simpl.
  split_and!; simpl.
  - by apply add_entry_all_NoDup.
  - lia.
  - intros k e Hin Hi.
    destruct (add_entry_all_ids _ _ _ _ _ _ _ Hin Hi) as [[_ ?] | (e0 & Hin0 & Hi0)]; [done|].
    specialize (Hbelow _ _ _ Hin0 Hi0). lia.
Qed.

Lemma invalidate_confined i K st : confined i K st → confined i K (Store.invalidate st).1.
Proof.
  intros (Hnd & Hlt & Hat). unfold Store.invalidate, Store._runOnChanges. simpl.
  split_and!; simpl; [by apply run_changes_NoDup | done |].
  intros k e Hin Hi.
  destruct (run_changes_no_new _ _ k e i Hin Hi) as (e0 & Hin0 & Hi0). eauto.
Qed.

Lemma perform_apply operations invalidate_arg st :
  perform (DoApply operations invalidate_arg) st =
    let st1 := with_state (Patch.object (Patch.apply operations (Store._state st))) st in
    if default false invalidate_arg then Store.invalidate st1 else (st1, []).
Proof.
  unfold perform, Store.apply. cbv zeta. by destruct (default false invalidate_arg).
Qed.

Lemma perform_confined i K a st : confined i K st → confined i K (perform a st).1.
Proof.
  intros Hc. destruct a as [operations invalidate_arg | paths cb | h |].
  - rewrite perform_apply. cbv zeta.
    destruct (default false invalidate_arg); [|exact Hc].
    apply invalidate_confined. exact Hc.
  - destruct Hc as (Hnd & Hlt & Hat). unfold perform, Store.onChange.
    rewrite addOnChange_all.
    split_and!; simpl.
    + by apply add_entry_all_NoDup.
    + lia.
    + intros k e Hin Hi.
      destruct (add_entry_all_ids _ _ _ _ _ _ _ Hin Hi) as [[-> _] | (e0 & Hin0 & Hi0)];
        [lia | eauto].
  - destruct Hc as (Hnd & Hlt & Hat). unfold perform. split_and!.
    + cbn [fst]. rewrite remove_strip, strip_all_keys. done.
    + done.
    + cbn [fst]. rewrite remove_strip. intros k e Hin Hi.
      destruct (strip_all_no_new _ _ _ k e i Hin Hi) as (e0 & Hin0 & Hi0). eauto.
  - by apply invalidate_confined.
Qed.

Lemma invalidate_quiet i st : confined i [] st → i ∉ called_ids (Store.invalidate st).2.
Proof.
  intros (_ & _ & Hat). rewrite invalidate_called.
  intros ([k e] & Hin & _ & Hi)%run_changes_called.
  specialize (Hat k e Hin Hi). by apply elem_of_nil in Hat.
Qed.

Lemma perform_quiet i a st : confined i [] st → i ∉ called_ids (perform a st).2.
Proof.
  intros Hc. destruct a as [operations invalidate_arg | paths cb | h |].
  - rewrite perform_apply. cbv zeta.
    destruct (default false invalidate_arg); [|apply not_elem_of_nil].
    apply invalidate_quiet. exact Hc.
  - apply not_elem_of_nil.
  - apply not_elem_of_nil.
  - by apply invalidate_quiet.
Qed.

Lemma perform_all_confined i K actions st :
  confined i K st → confined i K (perform_all actions st).1.
Proof.
  revert st. induction actions as [|a actions IH]; intros st Hc; simpl; [done|].
  by apply IH, perform_confined.
Qed.

Lemma perform_all_quiet i actions st :
  confined i [] st → i ∉ called_ids (perform_all actions st).2.
Proof.
  revert st. induction actions as [|a actions IH]; intros st Hc; simpl.
  - apply not_elem_of_nil.
  - rewrite called_ids_app, not_elem_of_app. split.
    + by apply perform_quiet.
    + by apply IH, perform_confined.
Qed.

Lemma remove_confined h K st :
  confined (Store.handle_callbackId h) K st →
  (∀ k, k ∈ K → k ∈ Path.path <$> Store.handle_paths h) →
  confined (Store.handle_callbackId h) [] (Store.remove h st).
Proof.
  intros (Hnd & Hlt & Hat) HK.
  assert (NoDup (map_keys (Store._changePaths (Store.remove h st)))) as Hnd'.
  { by rewrite remove_strip, strip_all_keys. }
  split_and!; [done | done |].
  intros k e Hin Hi. exfalso.
  apply (map_get_NoDup _ _ _ Hnd') in Hin as Hget.
  rewrite remove_strip, strip_all_get in Hget.
  case_bool_decide as Hk.
  - destruct (map_get k (Store._changePaths st)) as [e0|]; [|done].
    injection Hget as <-. apply strip_subscribers in Hi as [_ ?]. done.
  - apply map_get_Some_elem in Hget. apply Hk, HK. eauto.
Qed.

(** Stores built by their own methods are well formed. *)
Lemma create_wf : store_wf Store.create.
Proof.
  split; [apply NoDup_nil_2|]. intros k e j Hin. by apply elem_of_nil in Hin.
Qed.

Lemma invalidate_wf st : store_wf st → store_wf (Store.invalidate st).1.
Proof.
  intros [Hnd Hbelow]. unfold Store.invalidate, Store._runOnChanges.
  split; simpl; [by apply run_changes_NoDup|].
  intros k e j Hin Hj.
  destruct (run_changes_no_new _ _ k e j Hin Hj) as (e0 & Hin0 & Hj0). eauto.
Qed.

Lemma perform_wf a st : store_wf st → store_wf (perform a st).1.
Proof.
  intros Hwf. destruct a as [operations invalidate_arg | paths cb | h |].
  - rewrite perform_apply. cbv zeta.
    destruct (default false invalidate_arg); [|exact Hwf].
    apply invalidate_wf. exact Hwf.
  - destruct Hwf as [Hnd Hbelow]. unfold perform, Store.onChange.
    rewrite addOnChange_all. split; simpl.
    + by apply add_entry_all_NoDup.
    + intros k e j Hin Hj.
      destruct (add_entry_all_ids _ _ _ _ _ _ _ Hin Hj) as [[-> _] | (e0 & Hin0 & Hj0)];
        [lia|]. specialize (Hbelow _ _ _ Hin0 Hj0). lia.
  - destruct Hwf as [Hnd Hbelow]. unfold perform. split.
    + cbn [fst]. rewrite remove_strip, strip_all_keys. done.
    + cbn [fst]. rewrite remove_strip. intros k e j Hin Hj.
      destruct (strip_all_no_new _ _ _ k e j Hin Hj) as (e0 & Hin0 & Hj0). eauto.
  - by apply invalidate_wf.
Qed.

Lemma perform_all_wf actions st : store_wf st → store_wf (perform_all actions st).1.
Proof.
  revert st. induction actions as [|a actions IH]; intros st Hwf; simpl; [done|].
  by apply IH, perform_wf.
Qed.

(** C3. Once the handle of an [onChange] has been removed, nothing the
    client does afterwards invokes that subscription again, whatever happened
    between registration and removal and whether or not its addresses still
    change; removing a second time changes nothing. *)
Theorem removed_subscription_stays_silent
    (st : Store.t) (paths : Path.t + list Path.t) (cb : Callback)
    (before after : list Action) :
  store_wf st →
  let r := Store.onChange paths cb st in
  let removed := Store.remove r.2 (perform_all before r.1).1 in
  (Store.handle_callbackId r.2 ∉ called_ids (perform_all after removed).2) ∧
  Store.remove r.2 removed = removed.
Proof.
  intros Hwf r removed. split; [|apply remove_idempotent].
  apply perform_all_quiet. unfold removed.
  eapply remove_confined; [|done].
  apply perform_all_confined. by apply onChange_confined.
Qed.

Lemma removed_subscription_stays_silent_witness :
  let r := Store.onChange (inr [Samples.path_a; Samples.path_ab]) Samples.log_a Samples.filled in
  let before := [DoOnChange (inl Samples.path_c) Samples.log_c;
                 DoApply [Replace (Pointer.of_string "/a/b") (VNum 5)] (Some true)] in
  let after := [DoApply [Replace (Pointer.of_string "/a/b") (VNum 7);
                         Replace (Pointer.of_string "/c") (VNum 7)] (Some true);
                DoInvalidate] in
  let removed := Store.remove r.2 (perform_all before r.1).1 in
  (Store.handle_callbackId r.2 ∉ called_ids (perform_all after removed).2) ∧
  Store.remove r.2 removed = removed.
Proof.
  apply (removed_subscription_stays_silent Samples.filled
           (inr [Samples.path_a; Samples.path_ab]) Samples.log_a).
  split.
  - apply NoDup_nil_2.
  - intros k e j Hin. vm_compute in Hin. by apply elem_of_nil in Hin.
Defined.

(** ** The worker store *)

Lemma send_all_frame entries acc :
  let r := send_all entries acc in
  WorkerStore._messageId acc.1 ≤ WorkerStore._messageId r.1 ∧
  (∀ j, j ≤ WorkerStore._messageId acc.1 →
        WorkerStore._messageQueue r.1 !! j = WorkerStore._messageQueue acc.1 !! j) ∧
  settled r.2 = settled acc.2 ∧
  emitted r.2 = emitted acc.2.
Proof.
  unfold send_all. revert acc.
  induction entries as [|entry entries IH]; intros acc; simpl; [done|].
  destruct (IH ((WorkerStore._getState acc.1).1, acc.2 ++ (WorkerStore._getState acc.1).2))
    as (Hle & Hq & Hs & He).
  simpl in *. split_and!.
  - lia.
  - intros j Hj. rewrite Hq by lia. apply lookup_insert_ne. lia.
  - rewrite Hs, settled_app. simpl. by rewrite app_nil_r.
  - rewrite He, emitted_app. simpl. by rewrite app_nil_r.
Qed.

Lemma worker_invalidate_frame st :
  let r := WorkerStore.invalidate st in
  WorkerStore._messageId st ≤ WorkerStore._messageId r.1 ∧
  (∀ j, j ≤ WorkerStore._messageId st →
        WorkerStore._messageQueue r.1 !! j = WorkerStore._messageQueue st !! j) ∧
  settled r.2 = [] ∧
  emitted r.2 = ["invalidate"].
Proof.
  destruct (send_all_frame (WorkerStore._changePaths st) (st, [])) as (Hle & Hq & Hs & He).
  destruct (run_changes_ok None (WorkerStore._changePaths st)) as [_ Hcalls].
  apply calls_only_quiet in Hcalls as (Hem & _ & Hse).
  unfold WorkerStore.invalidate, WorkerStore._runOnChanges. fold (send_all (WorkerStore._changePaths st) (st, [])).
  simpl in *. split_and!; [done | done | |].
  - rewrite !settled_app, Hs, Hse. done.
  - rewrite !emitted_app, He, Hem. done.
Qed.

(** The worker store keeps its pending ids below the counter. *)
Lemma create_bounded : queue_bounded WorkerStore.create.1.
Proof. apply map_Forall_empty. Qed.

Lemma getResult_bounded w st : queue_bounded st → queue_bounded (WorkerStore._getResult w st).
Proof.
  intros Hb. unfold queue_bounded, WorkerStore._getResult. simpl.
  apply map_Forall_insert_2; [lia|].
  eapply map_Forall_impl; [exact Hb|]. simpl. intros; lia.
Qed.

Lemma apply_bounded operations invalidate_arg st :
  queue_bounded st → queue_bounded (WorkerStore.apply operations invalidate_arg st).1.1.
Proof. apply getResult_bounded. Qed.

Lemma get_bounded p st : queue_bounded st → queue_bounded (WorkerStore.get p st).1.1.
Proof. apply getResult_bounded. Qed.

Lemma send_all_bounded entries acc :
  queue_bounded acc.1 → queue_bounded (send_all entries acc).1.
Proof.
  unfold send_all. revert acc.
  induction entries as [|entry entries IH]; intros acc Hb; simpl; [done|].
  apply IH. simpl. by apply getResult_bounded.
Qed.

Lemma worker_invalidate_bounded st :
  queue_bounded st → queue_bounded (WorkerStore.invalidate st).1.
Proof.
  intros Hb. apply (send_all_bounded (WorkerStore._changePaths st) (st, [])) in Hb.
  exact Hb.
Qed.

Lemma onmessage_bounded data st :
  queue_bounded st → queue_bounded (WorkerStore.onmessage data st).1.
Proof.
  intros Hb. unfold WorkerStore.onmessage.
  destruct (WorkerStore._messageQueue st !! Response.id data) as [w|]; [|done].
  fold (answered (Response.id data) st).
  assert (queue_bounded (answered (Response.id data) st)) as Hb'.
  { unfold queue_bounded, answered. simpl. by apply map_Forall_delete. }
  destruct w as [|[|]]; [done | | done].
  by apply worker_invalidate_bounded.
Qed.

(** C8. An answer is matched with the request of its id and with no other:
    when the id is pending, its promise is settled with the result of the
    answer, its entry is deleted, every other pending entry stays as it was,
    and a second answer with that id finds nothing; when the id is not
    pending, the answer is reported and the store is left untouched. *)
Theorem responses_are_matched_by_id (st : WorkerStore.t) (data : Response.t) :
  queue_bounded st →
  let r := WorkerStore.onmessage data st in
  match WorkerStore._messageQueue st !! Response.id data with
  | Some _ =>
      settled r.2 = [(Response.id data, Response.result data)] ∧
      WorkerStore._messageQueue r.1 !! Response.id data = None ∧
      (∀ j w, j ≠ Response.id data →
              WorkerStore._messageQueue st !! j = Some w →
              WorkerStore._messageQueue r.1 !! j = Some w) ∧
      WorkerStore.onmessage data r.1 = (r.1, [Warned (Response.id data)])
  | None => r = (st, [Warned (Response.id data)])
  end.
Proof.
  intros Hbound r. unfold r, WorkerStore.onmessage.
  destruct (WorkerStore._messageQueue st !! Response.id data) as [w|] eqn:Hget; [|done].
  fold (answered (Response.id data) st).
  pose proof (map_Forall_lookup_1 _ _ _ _ Hbound Hget) as Hid. simpl in Hid.
  assert (∀ r' : WorkerStore.t * list Effect,
            (∀ j, j ≤ WorkerStore._messageId st →
                  WorkerStore._messageQueue r'.1 !! j
                    = delete (Response.id data) (WorkerStore._messageQueue st) !! j) →
            settled r'.2 = [] →
            let out := (r'.1, r'.2 ++ [Settled (Response.id data) (Response.result data)]) in
            settled out.2 = [(Response.id data, Response.result data)] ∧
            WorkerStore._messageQueue out.1 !! Response.id data = None ∧
            (∀ j w, j ≠ Response.id data →
                    WorkerStore._messageQueue st !! j = Some w →
                    WorkerStore._messageQueue out.1 !! j = Some w)) as Hgen.
  { intros r' Hq Hs. simpl. split_and!.
    - rewrite settled_app, Hs. done.
    - rewrite Hq by done. apply lookup_delete_eq.
    - intros j w' Hne Hj.
      pose proof (map_Forall_lookup_1 _ _ _ _ Hbound Hj) as Hjle. simpl in Hjle.
      rewrite Hq by done. by rewrite lookup_delete_ne. }
  assert (∀ out : WorkerStore.t * list Effect,
            WorkerStore._messageQueue out.1 !! Response.id data = None →
            WorkerStore.onmessage data out.1 = (out.1, [Warned (Response.id data)])) as Hagain.
  { intros out Hnone. unfold WorkerStore.onmessage. by rewrite Hnone. }
  destruct w as [|[|]].
  - destruct (Hgen (answered (Response.id data) st, [])) as (H1 & H2 & H3); [done | done |].
    split_and!; [done | done | done |]. by apply (Hagain (_, _)).
  - destruct (worker_invalidate_frame (answered (Response.id data) st)) as (_ & Hq & Hs & _).
    destruct (Hgen (WorkerStore.invalidate (answered (Response.id data) st)))
      as (H1 & H2 & H3); [done | done |].
    split_and!; [done | done | done |]. by apply (Hagain (_, _)).
  - destruct (Hgen (answered (Response.id data) st, [])) as (H1 & H2 & H3); [done | done |].
    split_and!; [done | done | done |]. by apply (Hagain (_, _)).
Qed.

Lemma responses_are_matched_by_id_witness :
  let r := WorkerStore.onmessage
             {| Response.id := 2; Response.result := Some (VStr "test") |} Samples.in_flight in
  settled r.2 = [(2, Some (VStr "test"))] ∧
  WorkerStore._messageQueue r.1 !! 2 = None ∧
  (∀ j w, j ≠ 2 →
          WorkerStore._messageQueue Samples.in_flight !! j = Some w →
          WorkerStore._messageQueue r.1 !! j = Some w) ∧
  WorkerStore.onmessage {| Response.id := 2; Response.result := Some (VStr "test") |} r.1
    = (r.1, [Warned 2]).
Proof.
  apply (responses_are_matched_by_id Samples.in_flight
           {| Response.id := 2; Response.result := Some (VStr "test") |}).
  apply (bool_decide_unpack _). reflexivity.
Defined.

Lemma to_wire_reduces operations : Forall2 reduces_to operations (to_wire <$> operations).
Proof.
  induction operations as [|o operations IH]; [constructor|].
  rewrite fmap_cons. constructor; [|done]. destruct o; constructor.
Qed.

(** C9. The two revisions of [apply] can be told apart, and the forwarding
    one is the one that keeps the contract of a forwarded [apply].  The stub
    posts nothing, leaves the store as it is and hands back a promise
    already fulfilled with [{}], whatever the operations.  The forwarding
    revision posts one [apply] request under the next id and registers its
    resolver under that id; the request carries every operation of the
    batch, in order, with its kind and value as they are and its address
    reduced to the pointer string; the promise handed back is pending.  When
    the answer of that id arrives, the invalidation, if asked for, runs
    first and ends with the [invalidate] event, and only then is the promise
    settled with the result of the answer.  The forwarding revision so meets
    the contract at every call, the stub at none. *)
Theorem worker_apply_revisions_differ
    (operations : list Operation) (invalidate_arg : option bool) :
  (∀ stub, WorkerStoreStub.apply operations invalidate_arg stub
           = (stub, [], Fulfilled (Some (empty_object 0)))) ∧
  (∀ st,
     let sent := WorkerStore.apply operations invalidate_arg st in
     let i := WorkerStore._messageId st + 1 in
     (∃ wire,
        sent.1.2 = [Posted {| Request.id := i;
                              Request.type := "apply";
                              Request.payload := OperationsPayload wire |}] ∧
        length wire = length operations ∧
        (∀ k p v, operations !! k = Some (Add p v) →
                  wire !! k = Some (WireAdd (Pointer.path p) v)) ∧
        (∀ k p v, operations !! k = Some (Replace p v) →
                  wire !! k = Some (WireReplace (Pointer.path p) v)) ∧
        (∀ k p, operations !! k = Some (Remove p) →
                wire !! k = Some (WireRemove (Pointer.path p)))) ∧
     sent.2 = Pending i ∧
     WorkerStore._messageQueue sent.1.1 !! i
       = Some (WorkerStore.ThenApply (default false invalidate_arg)) ∧
     (∀ j, j ≠ i →
           WorkerStore._messageQueue sent.1.1 !! j = WorkerStore._messageQueue st !! j) ∧
     (∀ result,
        (WorkerStore.onmessage {| Response.id := i; Response.result := result |} sent.1.1).2
          = (if default false invalidate_arg
             then (WorkerStore._runOnChanges (answered i sent.1.1)).2 ++ [Emitted "invalidate"]
             else [])
            ++ [Settled i result]) ∧
     forwards_apply i operations sent.1.2 sent.2) ∧
  (∀ stub next,
     ¬ forwards_apply next operations
         (WorkerStoreStub.apply operations invalidate_arg stub).1.2
         (WorkerStoreStub.apply operations invalidate_arg stub).2) ∧
  (∀ stub st,
     (WorkerStoreStub.apply operations invalidate_arg stub).1.2
       ≠ (WorkerStore.apply operations invalidate_arg st).1.2 ∧
     (WorkerStoreStub.apply operations invalidate_arg stub).2
       ≠ (WorkerStore.apply operations invalidate_arg st).2).
Proof.
  pose proof (to_wire_reduces operations) as Hwire.
  split_and!; [done | | | done].
  - intros st sent i. split_and!.
    + exists (to_wire <$> operations). split_and!.
      * done.
      * apply length_fmap.
      * intros k p v Hk. by rewrite list_lookup_fmap, Hk.
      * intros k p v Hk. by rewrite list_lookup_fmap, Hk.
      * intros k p Hk. by rewrite list_lookup_fmap, Hk.
    + done.
    + apply lookup_insert_eq.
    + intros j Hj. unfold sent, WorkerStore.apply, WorkerStore._getResult.
      cbn [fst snd WorkerStore._messageQueue]. by rewrite lookup_insert_ne.
    + intros result. unfold WorkerStore.onmessage, sent, WorkerStore.apply. cbn [fst snd].
      cbn [Response.id Response.result]. unfold WorkerStore._getResult at 1.
      cbn [WorkerStore._messageQueue].
      rewrite lookup_insert_eq. by destruct (default false invalidate_arg).
    + exists (to_wire <$> operations). by split_and!.
  - intros stub next (wire & _ & Hout & _). discriminate Hout.
Qed.

(** C10. In the forwarding revision, [path] hands back the empty object as
    [state] and the empty array as [value] for every string or base path and
    every further segment; the pointer string is the one the local store
    builds, but the value is not looked up, whereas the local store resolves
    it against its root. *)
Theorem worker_path_is_unresolved (input : string + Path.t) (segments : list (option string)) :
  Path.state (WorkerStore.path input segments) = empty_object 0 ∧
  Path.value (WorkerStore.path input segments) = Some (empty_array 0) ∧
  Path.path (WorkerStore.path input segments) = Pointer.path (path_pointer input segments) ∧
  (∀ st, Path.path (Store.path input segments st)
           = Path.path (WorkerStore.path input segments) ∧
         Path.value (Store.path input segments st)
           = Pointer.get (path_pointer input segments) (Some (Store._state st))) ∧
  Path.value (Store.path (inl "/c") [] Samples.filled) = Some (VNum 2) ∧
  Path.value (WorkerStore.path (inl "/c") []) = Some (empty_array 0).
Proof. done. Qed.

(** ** The patch engine up to references *)

Lemma erase_obj_inv r m n :
  erase (VObj r m) = erase n → ∃ r' m', n = VObj r' m' ∧ erase <$> m = erase <$> m'.
Proof. destruct n; simpl; intros [=]. eauto. Qed.

Lemma erase_arr_inv r l n :
  erase (VArr r l) = erase n → ∃ r' l', n = VArr r' l' ∧ erase <$> l = erase <$> l'.
Proof. destruct n; simpl; intros [=]. eauto. Qed.

Lemma erase_scalar_inv n n' :
  erase n = erase n' →
  match n with
  | VObj _ _ | VArr _ _ => True
  | _ => n' = n
  end.
Proof. destruct n, n'; simpl; intros [=]; subst; done. Qed.

Lemma fmap_erase_lookup (m m' : gmap string Value) k :
  erase <$> m = erase <$> m' → erase <$> (m !! k) = erase <$> (m' !! k).
Proof. intros H. by rewrite <- !lookup_fmap, H. Qed.

Lemma fmap_erase_list_lookup (l l' : list Value) i :
  erase <$> l = erase <$> l' → erase <$> (l !! i) = erase <$> (l' !! i).
Proof. intros H. by rewrite <- !list_lookup_fmap, H. Qed.

Lemma fmap_erase_length (l l' : list Value) :
  erase <$> l = erase <$> l' → length l = length l'.
Proof. intros H. by rewrite <- (length_fmap erase l), H, length_fmap. Qed.

Lemma child_erase k n n' :
  erase n = erase n' → erase <$> Pointer.child k n = erase <$> Pointer.child k n'.
Proof.
  intros H. destruct n as [| b | z | s | r l | r m]; try (apply erase_scalar_inv in H as ->; done).
  - apply erase_arr_inv in H as (r' & l' & -> & Hl). simpl.
    destruct (Pointer.parse_index k); simpl; [|done]. by apply fmap_erase_list_lookup.
  - apply erase_obj_inv in H as (r' & m' & -> & Hm). simpl. by apply fmap_erase_lookup.
Qed.

Lemma put_child_erase c c' k ch ch' n n' :
  erase ch = erase ch' → erase n = erase n' →
  erase <$> Patch.put_child c k ch n = erase <$> Patch.put_child c' k ch' n'.
Proof.
  intros Hch H. destruct n as [| b | z | s | r l | r m]; try (apply erase_scalar_inv in H as ->; done).
  - apply erase_arr_inv in H as (r' & l' & -> & Hl). simpl.
    destruct (Pointer.parse_index k) as [i|]; simpl; [|done].
    rewrite <- (fmap_erase_length _ _ Hl).
    repeat case_bool_decide; simpl; try done.
    + by rewrite !list_fmap_insert, Hl, Hch.
    + rewrite !fmap_app, Hl. simpl. by rewrite Hch.
  - apply erase_obj_inv in H as (r' & m' & -> & Hm). simpl.
    by rewrite !fmap_insert, Hm, Hch.
Qed.

Lemma slot_add_congruent v v' :
  erase v = erase v' → slot_congruent (Patch.slot_add v) (Patch.slot_add v').
Proof.
  intros Hv c c' k n n' H. unfold Patch.slot_add.
  destruct n as [| b | z | s | r l | r m]; try (apply erase_scalar_inv in H as ->; done).
  - apply erase_arr_inv in H as (r' & l' & -> & Hl).
    destruct (Pointer.parse_index k) as [i|]; simpl; [|done].
    rewrite <- (fmap_erase_length _ _ Hl).
    case_bool_decide; simpl; [|done].
    by rewrite !fmap_app, !fmap_cons, !fmap_take, !fmap_drop, Hl, Hv.
  - apply erase_obj_inv in H as (r' & m' & -> & Hm). simpl.
    by rewrite !fmap_insert, Hm, Hv, (fmap_erase_lookup _ _ k Hm).
Qed.

Lemma slot_replace_congruent v v' :
  erase v = erase v' → slot_congruent (Patch.slot_replace v) (Patch.slot_replace v').
Proof.
  intros Hv c c' k n n' H. unfold Patch.slot_replace.
  destruct n as [| b | z | s | r l | r m]; try (apply erase_scalar_inv in H as ->; done).
  - apply erase_arr_inv in H as (r' & l' & -> & Hl).
    destruct (Pointer.parse_index k) as [i|]; simpl; [|done].
    pose proof (fmap_erase_list_lookup _ _ i Hl) as Hi.
    destruct (l !! i), (l' !! i); simpl in *; try done.
    rewrite !list_fmap_insert, Hl, Hv. by injection Hi as ->.
  - apply erase_obj_inv in H as (r' & m' & -> & Hm).
    pose proof (fmap_erase_lookup _ _ k Hm) as Hk.
    destruct (m !! k), (m' !! k); simpl in *; try done.
    rewrite !fmap_insert, Hm, Hv. by injection Hk as ->.
Qed.

Lemma slot_remove_congruent : slot_congruent Patch.slot_remove Patch.slot_remove.
Proof.
  intros c c' k n n' H. unfold Patch.slot_remove.
  destruct n as [| b | z | s | r l | r m]; try (apply erase_scalar_inv in H as ->; done).
  - apply erase_arr_inv in H as (r' & l' & -> & Hl).
    destruct (Pointer.parse_index k) as [i|]; simpl; [|done].
    pose proof (fmap_erase_list_lookup _ _ i Hl) as Hi.
    destruct (l !! i), (l' !! i); simpl in *; try done.
    rewrite !list_fmap_delete, Hl. by injection Hi as ->.
  - apply erase_obj_inv in H as (r' & m' & -> & Hm).
    pose proof (fmap_erase_lookup _ _ k Hm) as Hk.
    destruct (m !! k), (m' !! k); simpl in *; try done.
    rewrite !fmap_delete, Hm. by injection Hk as ->.
Qed.

Lemma fresh_container_erase c c' next :
  erase (Patch.fresh_container c next) = erase (Patch.fresh_container c' next).
Proof. unfold Patch.fresh_container. by destruct (Pointer.parse_index next). Qed.

Lemma descend_cons create leaf c k next rest n :
  Patch.descend create leaf c (k :: next :: rest) n =
    ch ← match Pointer.child k n with
         | Some ch => Some ch
         | None => if create then Some (Patch.fresh_container (S c) next) else None
         end;
    r ← Patch.descend create leaf (S c) (next :: rest) ch;
    node' ← Patch.put_child c k r.1 n;
    Some (node', r.2).
Proof. done. Qed.

Lemma descend_erase create leaf leaf' c c' segs n n' :
  slot_congruent leaf leaf' → erase n = erase n' →
  erase_result (Patch.descend create leaf c segs n)
    = erase_result (Patch.descend create leaf' c' segs n').
Proof.
  intros Hleaf. revert c c' n n'.
  induction segs as [|k rest IH]; intros c c' n n' H; [done|].
  destruct rest as [|next rest]; [by apply Hleaf|].
  rewrite !descend_cons.
  pose proof (child_erase k n n' H) as Hch.
  set (ch := match Pointer.child k n with
             | Some ch => Some ch
             | None => if create then Some (Patch.fresh_container (S c) next) else None
             end).
  set (ch' := match Pointer.child k n' with
              | Some ch => Some ch
              | None => if create then Some (Patch.fresh_container (S c') next) else None
              end).
  assert (erase <$> ch = erase <$> ch') as Hsub.
  { unfold ch, ch'.
    destruct (Pointer.child k n), (Pointer.child k n'); try done.
    destruct create; [|done]. cbn. f_equal. apply fresh_container_erase. }
  clearbody ch ch'.
  destruct ch as [x|], ch' as [x'|]; try done.
  assert (erase x = erase x') as Hx by (cbn in Hsub; congruence).
  pose proof (IH (S c) (S c') x x' Hx) as Hrec.
  cbn [mbind option_bind].
  destruct (Patch.descend create leaf (S c) (next :: rest) x) as [[y prev]|],
    (Patch.descend create leaf' (S c') (next :: rest) x') as [[y' prev']|];
    try done.
  assert (erase y = erase y' ∧ erase <$> prev = erase <$> prev') as [Hy Hprev].
  { cbn in Hrec. split; congruence. }
  pose proof (put_child_erase c c' k y y' n n' Hy H) as Hput.
  cbn [mbind option_bind fst snd].
  destruct (Patch.put_child c k y n) as [z|], (Patch.put_child c' k y' n') as [z'|];
    try done.
  assert (erase z = erase z') as Hz by (cbn in Hput; congruence).
  cbn. by rewrite Hz, Hprev.
Qed.

(** ** Each operation and its inverse *)

Lemma slot_add_replace v old :
  slot_inverse (Patch.slot_add v) (Patch.slot_replace old) (Some old) is_Some.
Proof.
  intros c c' k P P1. unfold Patch.slot_add, Patch.slot_replace.
  destruct P as [| b | z | s | r l | r m]; try done.
  - destruct (Pointer.parse_index k) as [i|]; simpl; [|done]. by case_bool_decide.
  - intros [= <- Hk]. rewrite lookup_insert_eq. simpl.
    eexists _, _. split_and!; [done | | by eexists].
    simpl. by rewrite insert_insert_eq, insert_id.
Qed.

Lemma slot_add_remove v : slot_inverse (Patch.slot_add v) Patch.slot_remove None is_Some.
Proof.
  intros c c' k P P1. unfold Patch.slot_add, Patch.slot_remove.
  destruct P as [| b | z | s | r l | r m]; try done.
  - destruct (Pointer.parse_index k) as [i|]; simpl; [|done].
    case_bool_decide as Hi; [|done]. intros [= <-].
    rewrite (list_lookup_middle _ _ _ i) by (by rewrite length_take_le). simpl.
    eexists _, _. split_and!; [done | | by eexists].
    simpl. rewrite <- (length_take_le l i) at 1 by done.
    by rewrite delete_middle, take_drop.
  - intros [= <- Hk]. rewrite lookup_insert_eq. simpl.
    eexists _, _. split_and!; [done | | by eexists].
    simpl. by rewrite delete_insert_eq, delete_id.
Qed.

Lemma slot_replace_replace v old :
  slot_inverse (Patch.slot_replace v) (Patch.slot_replace old) (Some old) is_Some.
Proof.
  intros c c' k P P1. unfold Patch.slot_replace.
  destruct P as [| b | z | s | r l | r m]; try done.
  - destruct (Pointer.parse_index k) as [i|]; simpl; [|done].
    destruct (l !! i) as [old0|] eqn:Hi; simpl; [|done]. intros [= <- ->].
    rewrite list_lookup_insert_eq by (by eapply lookup_lt_Some). simpl.
    eexists _, _. split_and!; [done | | by eexists].
    simpl. by rewrite list_insert_insert_eq, list_insert_id.
  - destruct (m !! k) as [old0|] eqn:Hk; simpl; [|done]. intros [= <- ->].
    rewrite lookup_insert_eq. simpl.
    eexists _, _. split_and!; [done | | by eexists].
    simpl. by rewrite insert_insert_eq, insert_id.
Qed.

Lemma slot_remove_add old :
  slot_inverse Patch.slot_remove (Patch.slot_add old) (Some old) (fun _ => True).
Proof.
  intros c c' k P P1. unfold Patch.slot_remove, Patch.slot_add.
  destruct P as [| b | z | s | r l | r m]; try done.
  - destruct (Pointer.parse_index k) as [i|]; simpl; [|done].
    destruct (l !! i) as [old0|] eqn:Hi; simpl; [|done]. intros [= <- ->].
    pose proof (lookup_lt_Some _ _ _ Hi) as Hlt.
    rewrite bool_decide_true by (rewrite length_delete by eauto; lia).
    eexists _, _. split_and!; [done | | done].
    simpl. f_equal. f_equal.
    rewrite delete_take_drop.
    rewrite take_app_length' by (by rewrite length_take_le by lia).
    rewrite drop_app_length' by (by rewrite length_take_le by lia).
    by apply take_drop_middle.
  - destruct (m !! k) as [old0|] eqn:Hk; simpl; [|done]. intros [= <- ->].
    eexists _, _. split_and!; [done | | done].
    simpl. by rewrite insert_delete_eq, insert_id.
Qed.

Lemma walk_None segs : Pointer.walk segs None = None.
Proof. by induction segs. Qed.

Lemma child_put_child c k ch ch1 n n1 :
  Pointer.child k n = Some ch → Patch.put_child c k ch1 n = Some n1 →
  Pointer.child k n1 = Some ch1.
Proof.
  destruct n as [| b | z | s | r l | r m]; try done; simpl.
  - destruct (Pointer.parse_index k) as [i|] eqn:Hk; simpl; [|done].
    intros Hi. pose proof (lookup_lt_Some _ _ _ Hi) as Hlt.
    rewrite bool_decide_true by done. intros [= <-]. simpl. rewrite Hk. simpl.
    by apply list_lookup_insert_eq.
  - intros _ [= <-]. simpl. apply lookup_insert_eq.
Qed.

Lemma put_child_twice c c' k ch ch1 ch2 n n1 :
  Pointer.child k n = Some ch → Patch.put_child c k ch1 n = Some n1 →
  erase ch2 = erase ch →
  ∃ n2, Patch.put_child c' k ch2 n1 = Some n2 ∧ erase n2 = erase n.
Proof.
  destruct n as [| b | z | s | r l | r m]; try done; simpl.
  - destruct (Pointer.parse_index k) as [i|] eqn:Hk; simpl; [|done].
    intros Hi. pose proof (lookup_lt_Some _ _ _ Hi) as Hlt.
    rewrite bool_decide_true by done. intros [= <-] Hch. simpl. rewrite Hk. simpl.
    rewrite bool_decide_true by (by rewrite length_insert).
    eexists. split; [done|]. simpl.
    rewrite list_insert_insert_eq, list_fmap_insert, Hch, <- list_fmap_insert.
    by rewrite list_insert_id.
  - intros Hi [= <-] Hch. eexists. split; [done|]. simpl.
    rewrite insert_insert_eq, fmap_insert, Hch, <- fmap_insert.
    by rewrite insert_id.
Qed.

Lemma descend_inverse create create' fwd bwd prev Q c c' segs n n1 :
  slot_inverse fwd bwd prev Q →
  is_Some (Pointer.walk (init_segments segs) (Some n)) →
  Patch.descend create fwd c segs n = Some (n1, prev) →
  ∃ n2 prev2, Patch.descend create' bwd c' segs n1 = Some (n2, prev2)
              ∧ erase n2 = erase n ∧ Q prev2.
Proof.
  intros Hinv. revert c c' n n1.
  induction segs as [|k rest IH]; intros c c' n n1 Hwalk Hfwd; [done|].
  destruct rest as [|next rest]; [by apply (Hinv c c' k n n1)|].
  rewrite descend_cons in Hfwd. rewrite descend_cons.
  change (init_segments (k :: next :: rest)) with (k :: init_segments (next :: rest)) in Hwalk.
  cbn [Pointer.walk mbind option_bind] in Hwalk.
  destruct (Pointer.child k n) as [ch|] eqn:Hch;
    [|rewrite walk_None in Hwalk; by destruct Hwalk].
  cbn [mbind option_bind] in Hfwd.
  destruct (Patch.descend create fwd (S c) (next :: rest) ch) as [[ch1 prev1]|] eqn:Hrec;
    [|done].
  cbn [mbind option_bind fst snd] in Hfwd.
  destruct (Patch.put_child c k ch1 n) as [n1'|] eqn:Hput; [|done].
  cbn [mbind option_bind] in Hfwd. injection Hfwd as -> ->.
  destruct (IH (S c) (S c') ch ch1 Hwalk Hrec) as (ch2 & prev2 & Hback & Hch2 & HQ).
  rewrite (child_put_child _ _ _ _ _ _ Hch Hput). cbn [mbind option_bind].
  rewrite Hback. cbn [mbind option_bind fst snd].
  destruct (put_child_twice c c' k ch ch1 ch2 n n1 Hch Hput Hch2) as (n2 & Hput2 & Hn2).
  rewrite Hput2. cbn [mbind option_bind]. eauto.
Qed.

Lemma descend_found leaf c segs n r :
  Patch.descend false leaf c segs n = Some r →
  is_Some (Pointer.walk (init_segments segs) (Some n)).
Proof.
  revert c n r. induction segs as [|k rest IH]; intros c n r; [done|].
  destruct rest as [|next rest]; [by eexists|].
  rewrite descend_cons.
  change (init_segments (k :: next :: rest)) with (k :: init_segments (next :: rest)).
  cbn [Pointer.walk mbind option_bind].
  destruct (Pointer.child k n) as [ch|]; [|done]. cbn [mbind option_bind].
  destruct (Patch.descend false leaf (S c) (next :: rest) ch) as [r'|] eqn:Hrec; [|done].
  intros _. by eapply IH.
Qed.

Lemma slot_congruent_refl_add v : slot_congruent (Patch.slot_add v) (Patch.slot_add v).
Proof. by apply slot_add_congruent. Qed.

Lemma slot_congruent_refl_replace v :
  slot_congruent (Patch.slot_replace v) (Patch.slot_replace v).
Proof. by apply slot_replace_congruent. Qed.

(** An operation does the same, up to references, on roots that are the
    same up to references. *)
Lemma step_erase c c' o X R :
  erase X = erase R → erase (Patch.step c o X).1 = erase (Patch.step c' o R).1.
Proof.
  intros H. destruct o as [p v | p v | p]; unfold Patch.step.
  - pose proof (descend_erase true _ _ c c' (Pointer.segments p) X R
                  (slot_congruent_refl_add v) H) as Hd.
    destruct (Patch.descend true (Patch.slot_add v) c (Pointer.segments p) X)
      as [[x [px|]]|],
      (Patch.descend true (Patch.slot_add v) c' (Pointer.segments p) R)
      as [[y [py|]]|]; cbn in Hd; try done; cbn; congruence.
  - pose proof (descend_erase false _ _ c c' (Pointer.segments p) X R
                  (slot_congruent_refl_replace v) H) as Hd.
    destruct (Patch.descend false (Patch.slot_replace v) c (Pointer.segments p) X)
      as [[x [px|]]|],
      (Patch.descend false (Patch.slot_replace v) c' (Pointer.segments p) R)
      as [[y [py|]]|]; cbn in Hd; try done; cbn; congruence.
  - pose proof (descend_erase false _ _ c c' (Pointer.segments p) X R
                  slot_remove_congruent H) as Hd.
    destruct (Patch.descend false Patch.slot_remove c (Pointer.segments p) X)
      as [[x [px|]]|],
      (Patch.descend false Patch.slot_remove c' (Pointer.segments p) R)
      as [[y [py|]]|]; cbn in Hd; try done; cbn; congruence.
Qed.

(** An operation either changes nothing and records no inverse, or records
    one inverse which, when the operation was grounded, leads back to the
    root up to references. *)
Lemma step_cases c o root :
  Patch.step c o root = (root, []) ∨
  ∃ root1 o', Patch.step c o root = (root1, [o']) ∧
    (grounded o root = true → ∀ c', erase (Patch.step c' o' root1).1 = erase root).
Proof.
  destruct o as [p v | p v | p]; unfold Patch.step, grounded.
  - destruct (Patch.descend true (Patch.slot_add v) c (Pointer.segments p) root)
      as [[root1 [old|]]|] eqn:Hd; [| |by left].
    + right. eexists _, _. split; [done|]. intros Hg%bool_decide_eq_true_1 c'.
      destruct (descend_inverse true false _ _ _ _ c c' _ _ _ (slot_add_replace v old) Hg Hd)
        as (n2 & prev2 & Hback & Hn2 & [old2 ->]).
      by rewrite Hback.
    + right. eexists _, _. split; [done|]. intros Hg%bool_decide_eq_true_1 c'.
      destruct (descend_inverse true false _ _ _ _ c c' _ _ _ (slot_add_remove v) Hg Hd)
        as (n2 & prev2 & Hback & Hn2 & [old2 ->]).
      by rewrite Hback.
  - destruct (Patch.descend false (Patch.slot_replace v) c (Pointer.segments p) root)
      as [[root1 [old|]]|] eqn:Hd; [| by left | by left].
    right. eexists _, _. split; [done|]. intros _ c'.
    pose proof (descend_found _ _ _ _ _ Hd) as Hg.
    destruct (descend_inverse false false _ _ _ _ c c' _ _ _ (slot_replace_replace v old) Hg Hd)
      as (n2 & prev2 & Hback & Hn2 & [old2 ->]).
    by rewrite Hback.
  - destruct (Patch.descend false Patch.slot_remove c (Pointer.segments p) root)
      as [[root1 [old|]]|] eqn:Hd; [| by left | by left].
    right. eexists _, _. split; [done|]. intros _ c'.
    pose proof (descend_found _ _ _ _ _ Hd) as Hg.
    destruct (descend_inverse false true _ _ _ _ c c' _ _ _ (slot_remove_add old) Hg Hd)
      as (n2 & prev2 & Hback & Hn2 & _).
    rewrite Hback. by destruct prev2.
Qed.

(** ** Batches *)

Lemma run_undo ops root undo :
  Patch.run ops root undo =
    {| Patch.object := exec ops root; Patch.undoOperations := undo_of ops root ++ undo |}.
Proof.
  unfold exec, undo_of, Patch.apply. revert root undo.
  induction ops as [|o ops IH]; intros root undo; [done|]. cbn [Patch.run].
  rewrite IH. rewrite (IH _ (_ ++ [])). cbn. by rewrite app_nil_r, app_assoc.
Qed.

Lemma exec_cons o ops root :
  exec (o :: ops) root = exec ops (Patch.step (Patch.fresh_ref root o) o root).1.
Proof. unfold exec, Patch.apply. cbn [Patch.run]. by rewrite !run_undo. Qed.

Lemma undo_of_cons o ops root :
  undo_of (o :: ops) root =
    undo_of ops (Patch.step (Patch.fresh_ref root o) o root).1
      ++ (Patch.step (Patch.fresh_ref root o) o root).2.
Proof.
  unfold undo_of, Patch.apply. cbn [Patch.run]. rewrite !run_undo. cbn.
  by rewrite !app_nil_r.
Qed.

Lemma exec_app ops ops' root : exec (ops ++ ops') root = exec ops' (exec ops root).
Proof.
  revert root. induction ops as [|o ops IH]; intros root; [done|].
  by rewrite <- app_comm_cons, !exec_cons, IH.
Qed.

(** The undo operations of a grounded batch lead from its result, or from
    any root with the same content, back to a root with the content of the
    one the batch started from. *)
Lemma undo_of_restores ops root X :
  grounded_batch ops root = true →
  erase X = erase (exec ops root) →
  erase (exec (undo_of ops root) X) = erase root.
Proof.
  revert root X. induction ops as [|o ops IH]; intros root X Hg HX; [done|].
  cbn [grounded_batch] in Hg. apply andb_prop in Hg as [Hgo Hgrest].
  rewrite exec_cons in HX. rewrite undo_of_cons, exec_app.
  set (c := Patch.fresh_ref root o) in *.
  pose proof (IH _ X Hgrest HX) as Hback.
  destruct (step_cases c o root) as [Hstep | (root1 & o' & Hstep & Hinv)].
  - rewrite Hstep in *. done.
  - rewrite Hstep in *. cbn [fst snd] in *.
    rewrite exec_cons. cbn [exec Patch.apply Patch.run Patch.object].
    rewrite (step_erase _ 0 o' _ root1 Hback). by apply Hinv.
Qed.

(** ** The local store: undo *)

Lemma apply_state operations invalidate_arg st :
  Store._state (Store.apply operations invalidate_arg st).1.1 = exec operations (Store._state st).
Proof. unfold Store.apply. cbn. by destruct (default false invalidate_arg). Qed.

Lemma apply_undo operations invalidate_arg st :
  (Store.apply operations invalidate_arg st).2 = undo_of operations (Store._state st).
Proof. done. Qed.

(** C1, the claim as it stands fails: [Add] at [/a/b] on the empty root
    creates the object [/a] on its way, its inverse removes [/a/b] only, and
    the root the undo leads to is [{ a: {} }], not [{}]. *)
Lemma undo_round_trip_counterexample :
  ¬ undo_round_trip Store.create [Add (Pointer.of_string "/a/b") (VNum 1)].
Proof.
  unfold undo_round_trip, deep_eq. intros H. vm_compute in H. discriminate H.
Qed.

(** C1, amended. When no [Add] of the batch has an intermediate container
    to create, applying the undo operations returned by [apply] to the root
    it left leads back to a root deeply equal to the one before the batch,
    whether or not either call invalidates. *)
Theorem undo_restores_grounded_batch
    (st : Store.t) (batch : list Operation) (invalidate_arg invalidate_arg' : option bool) :
  grounded_batch batch (Store._state st) = true →
  let applied := Store.apply batch invalidate_arg st in
  let undone := Store.apply applied.2 invalidate_arg' applied.1.1 in
  deep_eq (Store._state undone.1.1) (Store._state st).
Proof.
  intros Hg applied undone. unfold deep_eq, undone, applied.
  rewrite apply_state, apply_undo, apply_state.
  by apply undo_of_restores.
Qed.

Lemma undo_restores_grounded_batch_witness :
  let applied := Store.apply Samples.batch None Samples.filled in
  let undone := Store.apply applied.2 None applied.1.1 in
  deep_eq (Store._state undone.1.1) (Store._state Samples.filled).
Proof.
  apply (undo_restores_grounded_batch Samples.filled Samples.batch None None).
  reflexivity.
Defined.

(** ** Further properties of the local store *)

Lemma visit_all_keys cur entries acc :
  (∀ entry, entry ∈ entries → entry.1 ∈ map_keys acc.1) →
  map_keys (fold_left (visit cur) entries acc).1 = map_keys acc.1.
Proof.
  revert acc. induction entries as [|entry entries IH]; intros acc Hsub; simpl; [done|].
  assert (map_keys (visit cur acc entry).1 = map_keys acc.1) as Hstep.
  { unfold visit. destruct (strict_eq _ _); [done|]. simpl.
    rewrite map_set_keys, bool_decide_true; [done|]. apply Hsub, list_elem_of_here. }
  rewrite IH, Hstep; [done|].
  intros entry' Hin. rewrite Hstep. apply Hsub. by apply list_elem_of_further.
Qed.

Lemma run_changes_keys cur cp : map_keys (run_changes cur cp).1 = map_keys cp.
Proof.
  unfold run_changes. simpl. rewrite visit_all_keys; [done|].
  intros entry Hin. simpl. unfold map_keys. apply list_elem_of_fmap. by exists entry.
Qed.

Lemma invalidate_changePaths st :
  Store._changePaths (Store.invalidate st).1 =
    (run_changes (Some (Store._state st)) (Store._changePaths st)).1.
Proof. done. Qed.

Lemma add_entry_all_prefix cb j ps cp :
  map_keys cp `prefix_of` map_keys (fold_left (add_entry cb j) ps cp).
Proof.
  revert cp. induction ps as [|p ps IH]; intros cp; simpl; [done|].
  etrans; [|apply IH].
  unfold add_entry, Store._addOnChange. simpl. rewrite map_set_keys.
  case_bool_decide; [done|]. by apply prefix_app_r.
Qed.

Lemma perform_keys a st :
  map_keys (Store._changePaths st) `prefix_of` map_keys (Store._changePaths (perform a st).1).
Proof.
  destruct a as [operations invalidate_arg | paths cb | h |].
  - rewrite perform_apply. cbv zeta.
    destruct (default false invalidate_arg); [|done].
    by rewrite invalidate_changePaths, run_changes_keys.
  - unfold perform, Store.onChange. rewrite addOnChange_all. simpl.
    apply add_entry_all_prefix.
  - unfold perform. cbn [fst]. by rewrite remove_strip, strip_all_keys.
  - unfold perform. by rewrite invalidate_changePaths, run_changes_keys.
Qed.

Lemma perform_counter a st :
  Store._callbackId (perform a st).1 =
    Store._callbackId st + registrations [a].
Proof.
  destruct a as [operations invalidate_arg | paths cb | h |].
  - rewrite perform_apply. cbv zeta. simpl.
    destruct (default false invalidate_arg); simpl; lia.
  - unfold perform, Store.onChange. rewrite addOnChange_all. simpl. lia.
  - simpl. lia.
  - simpl. lia.
Qed.

(** X1. Whatever a client does with a new store, every address is tracked
    under one entry only, and every subscriber id registered is below the
    counter, hence different from the id of any later registration. *)
Theorem reachable_store_is_well_formed (actions : list Action) :
  store_wf (perform_all actions Store.create).1.
Proof. apply perform_all_wf, create_wf. Qed.

(** X2. The counter of subscriber ids moves with registrations only: after
    any sequence of actions it has grown by the number of [onChange] calls,
    whatever they registered and whatever was removed. *)
Theorem callback_ids_count_registrations (actions : list Action) (st : Store.t) :
  Store._callbackId (perform_all actions st).1 = Store._callbackId st + registrations actions.
Proof.
  revert st. induction actions as [|a actions IH]; intros st; simpl; [lia|].
  rewrite IH, perform_counter. destruct a; simpl; lia.
Qed.

(** X3. A tracked address is never forgotten: whatever is applied,
    registered, removed or invalidated, the addresses tracked before are
    still tracked, in the same order, new ones coming after them.  Removing a
    subscription empties its entries but does not delete them. *)
Theorem tracked_addresses_are_kept (actions : list Action) (st : Store.t) :
  map_keys (Store._changePaths st)
    `prefix_of` map_keys (Store._changePaths (perform_all actions st).1).
Proof.
  revert st. induction actions as [|a actions IH]; intros st; simpl; [done|].
  etrans; [apply (perform_keys a)|apply IH].
Qed.

(** X4. [remove] takes away the callbacks registered under the id of the
    handle at the addresses of the handle, and nothing else: at every
    tracked address the baseline stays, and a callback stays unless it has
    that id and the address is one of the handle's. *)
Theorem remove_drops_its_subscriber_only
    (h : Store.Handle) (st : Store.t) (k : string) (e : OnChangeValue) :
  map_get k (Store._changePaths st) = Some e →
  ∃ e', map_get k (Store._changePaths (Store.remove h st)) = Some e' ∧
        previousValue e' = previousValue e ∧
        ∀ item, item ∈ callbacks e' ↔
                item ∈ callbacks e ∧
                ¬ (callbackId item = Store.handle_callbackId h ∧
                   k ∈ Path.path <$> Store.handle_paths h).
Proof.
  intros Hget. rewrite remove_strip, strip_all_get, Hget.
  case_bool_decide as Hk.
  - exists (strip (Store.handle_callbackId h) e). split_and!; [done | done |].
    intros item. unfold strip. simpl. rewrite list_elem_of_filter. tauto.
  - exists e. split_and!; [done | done |]. intros item. tauto.
Qed.

Lemma remove_drops_its_subscriber_only_witness :
  ∃ e', map_get "/a" (Store._changePaths
                        (Store.remove Samples.subscribed_a.2 Samples.subscribed.1)) = Some e' ∧
        previousValue e' = Some (VObj 1 {[ "b" := VNum 1 ]}) ∧
        ∀ item, item ∈ callbacks e' ↔
                item ∈ [{| callbackId := 0; callback := Samples.log_a |}] ∧
                ¬ (callbackId item = 0 ∧ "/a" ∈ ["/a"; "/a/b"]).
Proof.
  apply (remove_drops_its_subscriber_only Samples.subscribed_a.2 Samples.subscribed.1 "/a"
           {| callbacks := [{| callbackId := 0; callback := Samples.log_a |}];
              previousValue := Some (VObj 1 {[ "b" := VNum 1 ]}) |}).
  reflexivity.
Defined.

Lemma invalidate_called_iff st i :
  i ∈ called_ids (Store.invalidate st).2 ↔
  ∃ k e, (k, e) ∈ Store._changePaths st ∧
         entry_changed (Some (Store._state st)) (k, e) = true ∧
         i ∈ subscribers e.
Proof.
  rewrite invalidate_called.
  change (Store._runOnChanges st).2
    with (run_changes (Some (Store._state st)) (Store._changePaths st)).2.
  rewrite run_changes_called. split.
  - intros ([k e] & ? & ? & ?). eauto.
  - intros (k & e & ? & ? & ?). by exists (k, e).
Qed.

(** X5. [invalidate] invokes a subscriber exactly when it is registered on
    at least one tracked address whose value is no longer identical to its
    baseline. *)
Theorem subscriber_called_iff_address_changed (st : Store.t) (i : nat) :
  i ∈ called_ids (Store.invalidate st).2 ↔
  ∃ k e, (k, e) ∈ Store._changePaths st ∧
         entry_changed (Some (Store._state st)) (k, e) = true ∧
         i ∈ subscribers e.
Proof. apply invalidate_called_iff. Qed.

Lemma invalidate_entry st k e :
  NoDup (map_keys (Store._changePaths st)) →
  map_get k (Store._changePaths st) = Some e →
  map_get k (Store._changePaths (Store.invalidate st).1) =
    Some {| callbacks := callbacks e;
            previousValue :=
              if entry_changed (Some (Store._state st)) (k, e)
              then Pointer.get (Pointer.of_string k) (Some (Store._state st))
              else previousValue e |}.
Proof.
  intros Hnd Hget. apply map_get_Some_elem in Hget as Hin.
  unfold Store.invalidate, Store._runOnChanges, run_changes. simpl.
  rewrite (visit_all_get _ _ _ k e Hnd Hin).
  destruct (entry_changed _ _); [done|]. simpl. rewrite Hget. by destruct e.
Qed.

(** X6. After [invalidate] every tracked address has the callbacks it had;
    its baseline is the value now at the address when that value was not
    identical to the former baseline, and the former baseline otherwise. *)
Theorem invalidate_rebases_changed_addresses (st : Store.t) (k : string) (e : OnChangeValue) :
  NoDup (map_keys (Store._changePaths st)) →
  map_get k (Store._changePaths st) = Some e →
  map_get k (Store._changePaths (Store.invalidate st).1) =
    Some {| callbacks := callbacks e;
            previousValue :=
              if entry_changed (Some (Store._state st)) (k, e)
              then Pointer.get (Pointer.of_string k) (Some (Store._state st))
              else previousValue e |}.
Proof. apply invalidate_entry. Qed.

Lemma invalidate_rebases_changed_addresses_witness :
  map_get "/a/b" (Store._changePaths (Store.invalidate Samples.edited).1) =
    Some {| callbacks := [{| callbackId := 0; callback := Samples.log_a |}];
            previousValue := Some (VNum 5) |}.
Proof.
  apply (invalidate_rebases_changed_addresses Samples.edited "/a/b"
           {| callbacks := [{| callbackId := 0; callback := Samples.log_a |}];
              previousValue := Some (VNum 1) |}).
  - apply (bool_decide_unpack _). reflexivity.
  - reflexivity.
Defined.

Lemma strict_eq_refl v : strict_eq v v = true.
Proof. destruct v as [[]|]; simpl; try done; by rewrite bool_decide_true. Qed.

Lemma calls_only_no_ids out : calls_only out → called_ids out = [] → out = [].
Proof.
  destruct 1 as [|e out (i & cb & ->) _]; [done|]. simpl. discriminate.
Qed.

Lemma invalidate_settles st k e :
  NoDup (map_keys (Store._changePaths st)) →
  (k, e) ∈ Store._changePaths (Store.invalidate st).1 →
  entry_changed (Some (Store._state st)) (k, e) = false.
Proof.
  intros Hnd Hin.
  assert (NoDup (map_keys (Store._changePaths (Store.invalidate st).1))) as Hnd'.
  { by rewrite invalidate_changePaths, run_changes_keys. }
  apply (map_get_NoDup _ _ _ Hnd') in Hin as Hget'.
  assert (k ∈ map_keys (Store._changePaths st)) as Hk.
  { rewrite <- (run_changes_keys (Some (Store._state st))), <- invalidate_changePaths.
    unfold map_keys. apply list_elem_of_fmap. by exists (k, e). }
  destruct (map_get k (Store._changePaths st)) as [e0|] eqn:Hget;
    [|by apply map_get_None in Hget].
  rewrite (invalidate_entry st k e0 Hnd Hget) in Hget'.
  injection Hget' as <-. unfold entry_changed at 1. simpl.
  destruct (entry_changed (Some (Store._state st)) (k, e0)) eqn:Hch.
  - by rewrite strict_eq_refl.
  - unfold entry_changed in Hch. simpl in Hch. by rewrite Hch.
Qed.

(** X7. Notifications are not repeated: when nothing was applied in
    between, a second [invalidate] invokes no callback and only emits its
    event.  Numbers being integers, every value is identical to itself. *)
Theorem second_invalidate_is_silent (st : Store.t) :
  NoDup (map_keys (Store._changePaths st)) →
  (Store.invalidate (Store.invalidate st).1).2 = [Emitted "invalidate"].
Proof.
  intros Hnd. set (st1 := (Store.invalidate st).1).
  assert (called_ids (Store._runOnChanges st1).2 = []) as Hnone.
  { destruct (called_ids (Store._runOnChanges st1).2) as [|i l] eqn:Hids; [done|].
    assert (i ∈ called_ids (Store.invalidate st1).2) as Hi.
    { rewrite invalidate_called, Hids. apply list_elem_of_here. }
    apply invalidate_called_iff in Hi as (k & e & Hin & Hch & _).
    pose proof (invalidate_settles st k e Hnd Hin) as Hsame.
    change (Store._state st1) with (Store._state st) in Hch. congruence. }
  destruct (run_changes_ok (Some (Store._state st1)) (Store._changePaths st1)) as [_ Hcalls].
  change (Store.invalidate st1).2 with ((Store._runOnChanges st1).2 ++ [Emitted "invalidate"]).
  assert ((Store._runOnChanges st1).2 = []) as ->; [|done].
  by apply calls_only_no_ids.
Qed.

Lemma second_invalidate_is_silent_witness :
  (Store.invalidate (Store.invalidate Samples.edited).1).2 = [Emitted "invalidate"].
Proof.
  apply (second_invalidate_is_silent Samples.edited).
  apply (bool_decide_unpack _). reflexivity.
Defined.

(** X8. Registering a path the store has just built, on an address that is
    not tracked yet, records as baseline the value the pointer of that path
    resolves to in the current root. *)
Theorem onChange_fresh_path_records_live_value
    (st : Store.t) (input : string + Path.t) (segments : list (option string))
    (cb : Callback) :
  let p := Store.path input segments st in
  map_get (Path.path p) (Store._changePaths st) = None →
  previousValue <$> map_get (Path.path p) (Store._changePaths (Store.onChange (inl p) cb st).1)
    = Some (Pointer.get (path_pointer input segments) (Some (Store._state st))).
Proof.
  intros p Hnew. unfold Store.onChange. rewrite addOnChange_all. simpl.
  destruct (add_entry_new cb (Store._callbackId st) [p] (Store._changePaths st)
              (Path.path p) p Hnew) as (e & He & Hprev & _).
  { unfold first_at. simpl. by rewrite bool_decide_true. }
  simpl in He. rewrite He. simpl. by rewrite Hprev.
Qed.

Lemma onChange_fresh_path_records_live_value_witness :
  previousValue <$>
    map_get "/c" (Store._changePaths
                    (Store.onChange (inl (Store.path (inl "/c") [] Samples.moved))
                       Samples.log_c Samples.moved).1)
    = Some (Some (VNum 2)).
Proof.
  apply (onChange_fresh_path_records_live_value Samples.moved (inl "/c") [] Samples.log_c).
  reflexivity.
Defined.

Lemma omap_defined (l : list string) :
  omap (fun segment : option string => segment) (Some <$> l) = l.
Proof. induction l as [|x l IH]; simpl; [done | by f_equal]. Qed.

Lemma path_pointer_defined input segments :
  path_pointer input segments
    = path_pointer input (Some <$> omap (fun segment => segment) segments).
Proof.
  unfold path_pointer. destruct input as [s|p]; cbv zeta.
  - cbn [omap list_omap]. by rewrite omap_defined.
  - by rewrite !omap_app, !omap_defined.
Qed.

(** X9. [undefined] segments are ignored by [path], in the local store and
    in the worker store alike: the path built is the one built from the
    segments that are strings. *)
Theorem path_ignores_undefined_segments
    (input : string + Path.t) (segments : list (option string)) (st : Store.t) :
  Store.path input segments st
    = Store.path input (Some <$> omap (fun segment => segment) segments) st ∧
  WorkerStore.path input segments
    = WorkerStore.path input (Some <$> omap (fun segment => segment) segments).
Proof.
  pose proof (path_pointer_defined input segments) as H.
  split.
  - change (Store.path input segments st)
      with {| Path.path := Pointer.path (path_pointer input segments);
              Path.state := Store._state st;
              Path.value := Pointer.get (path_pointer input segments) (Some (Store._state st)) |}.
    by rewrite H.
  - change (WorkerStore.path input segments)
      with {| Path.path := Pointer.path (path_pointer input segments);
              Path.state := empty_object 0;
              Path.value := Some (empty_array 0) |}.
    by rewrite H.
Qed.

(** X10. [at] reads the value captured in the path, never the store, and
    never fails.  For a safe integer as index: on an array it gives the
    element at the index, and [undefined] when the index is negative or past
    the end; [undefined], [null], [false], [0] and [""] are handed back as
    they are, so that a path to [null] gives [null] and not [undefined];
    [true] and the other numbers give [undefined]; an object gives its
    property named by the decimal digits of the index.  The state is the one
    of the path and the pointer string is the string of the path, a [/] and
    the decimal digits of the index. *)
Theorem at_reads_the_captured_array (p : Path.t) (index : Z) :
  safe_integer index →
  Path.state (Store_at p index) = Path.state p ∧
  Path.path (Store_at p index) = Path.path p +:+ "/" +:+ pretty index ∧
  (∀ r l, Path.value p = Some (VArr r l) →
     Path.value (Store_at p index)
       = if bool_decide (0 ≤ index < Z.of_nat (length l))%Z
         then l !! Z.to_nat index else None) ∧
  (∀ r m, Path.value p = Some (VObj r m) →
     Path.value (Store_at p index) = m !! pretty index) ∧
  (Path.value p ∈ [None; Some VNull; Some (VBool false); Some (VNum 0); Some (VStr "")] →
     Path.value (Store_at p index) = Path.value p) ∧
  (∀ n, Path.value p = Some (VBool true) ∨ (Path.value p = Some (VNum n) ∧ n ≠ 0%Z) →
     Path.value (Store_at p index) = None).
Proof.
  intros _. split_and!; [done | done | | | |].
  - intros r l Hv. unfold Store_at, Store.get. rewrite Hv. simpl.
    case_bool_decide as H0; case_bool_decide as H1; try done; try lia.
    apply lookup_ge_None_2. lia.
  - intros r m Hv. unfold Store_at, Store.get. by rewrite Hv.
  - intros Hf. unfold Store_at, Store.get. cbn [Path.value].
    repeat (apply elem_of_cons in Hf as [-> | Hf]; [done|]).
    by apply elem_of_nil in Hf.
  - intros n [Hv | [Hv Hn]]; unfold Store_at, Store.get; rewrite Hv; simpl; [done|].
    by rewrite bool_decide_false.
Qed.

Lemma at_reads_the_captured_array_witness :
  Path.value (Store_at MoreSamples.path_list 1) = Some (VNum 20) ∧
  Path.value (Store_at MoreSamples.path_list 2) = None ∧
  Path.value (Store_at {| Path.path := "/n"; Path.state := VNull; Path.value := Some VNull |} 0)
    = Some VNull.
Proof.
  assert (safe_integer 0 ∧ safe_integer 1 ∧ safe_integer 2) as (S0 & S1 & S2).
  { unfold safe_integer. split_and!; split; reflexivity. }
  destruct (at_reads_the_captured_array MoreSamples.path_list 1 S1) as (_ & _ & H1 & _).
  destruct (at_reads_the_captured_array MoreSamples.path_list 2 S2) as (_ & _ & H2 & _).
  destruct (at_reads_the_captured_array
              {| Path.path := "/n"; Path.state := VNull; Path.value := Some VNull |} 0 S0)
    as (_ & _ & _ & _ & H3 & _).
  split_and!.
  - apply (H1 1 [VNum 10; VNum 20]). reflexivity.
  - apply (H2 1 [VNum 10; VNum 20]). reflexivity.
  - apply H3. apply list_elem_of_further, list_elem_of_here.
Defined.

Lemma called_ids_calls (items : list OnChangeCallback) :
  called_ids ((fun item => Called (callbackId item) (callback item)) <$> items)
    = callbackId <$> items.
Proof. induction items as [|item items IH]; simpl; [done | by f_equal]. Qed.





Lemma invalidate_emitted st : emitted (Store.invalidate st).2 = ["invalidate"].
Proof.
  destruct (run_changes_ok (Some (Store._state st)) (Store._changePaths st)) as [_ Hcalls].
  apply calls_only_quiet in Hcalls as (Hem & _ & _).
  change (Store.invalidate st).2
    with ((run_changes (Some (Store._state st)) (Store._changePaths st)).2
            ++ [Emitted "invalidate"]).
  by rewrite emitted_app, Hem.
Qed.

(** X16. The [invalidate] event is emitted once for every invalidation
    asked for, by [invalidate] itself or by an [apply] whose flag is set, and
    by nothing else: over any sequence of actions the events emitted are as
    many [invalidate] events as there were such calls. *)
Theorem events_count_invalidations (actions : list Action) (st : Store.t) :
  emitted (perform_all actions st).2 = replicate (invalidations actions) "invalidate".
Proof.
  revert st. induction actions as [|a actions IH]; intros st; [done|].
  cbn [perform_all fst snd]. rewrite emitted_app, IH.
  destruct a as [operations invalidate_arg | paths cb | h |].
  - rewrite perform_apply. cbv zeta. cbn [invalidations].
    destruct (default false invalidate_arg); [|done].
    by rewrite invalidate_emitted.
  - done.
  - done.
  - unfold perform. by rewrite invalidate_emitted.
Qed.

Lemma add_entry_all_other cb j ps cp k :
  k ∉ Path.path <$> ps →
  map_get k (fold_left (add_entry cb j) ps cp) = map_get k cp.
Proof.
  revert cp. induction ps as [|q ps IH]; intros cp; simpl; [done|].
  intros [Hne Hnot]%not_elem_of_cons. rewrite IH by done.
  unfold add_entry, Store._addOnChange. simpl. by apply map_get_set_ne.
Qed.

Lemma add_entry_all_known cb j ps cp k e0 :
  map_get k cp = Some e0 →
  ∃ n, map_get k (fold_left (add_entry cb j) ps cp) =
         Some {| callbacks := callbacks e0
                              ++ replicate n {| callbackId := j; callback := cb |};
                 previousValue := previousValue e0 |}.
Proof.
  revert cp e0. induction ps as [|q ps IH]; intros cp e0 Hget; simpl.
  - exists 0. simpl. rewrite app_nil_r, Hget. by destruct e0.
  - destruct (decide (Path.path q = k)) as [<-|Hne].
    + edestruct (IH (add_entry cb j cp q)) as [n Hn].
      { unfold add_entry, Store._addOnChange. simpl. apply map_get_set_eq. }
      exists (S n). rewrite Hn, Hget. simpl. by rewrite <- app_assoc.
    + apply (IH (add_entry cb j cp q) e0).
      unfold add_entry, Store._addOnChange. simpl. by rewrite map_get_set_ne.
Qed.

Lemma add_entry_all_new cb j ps cp k q0 :
  map_get k cp = None → first_at k ps = Some q0 →
  ∃ n, map_get k (fold_left (add_entry cb j) ps cp) =
         Some {| callbacks := replicate n {| callbackId := j; callback := cb |};
                 previousValue := Path.value q0 |}.
Proof.
  revert cp. induction ps as [|q ps IH]; intros cp Hget; [done|].
  unfold first_at. simpl. destruct (decide (Path.path q = k)) as [<-|Hne].
  - rewrite bool_decide_true by done. intros [= <-].
    edestruct (add_entry_all_known cb j ps (add_entry cb j cp q)) as [n Hn].
    { unfold add_entry, Store._addOnChange. simpl. apply map_get_set_eq. }
    exists (S n). rewrite Hn, Hget. done.
  - rewrite bool_decide_false by done. intros Hfirst.
    apply (IH (add_entry cb j cp q)); [|done].
    unfold add_entry, Store._addOnChange. simpl. by rewrite map_get_set_ne.
Qed.

Lemma filter_replicate_own (i : nat) cb n :
  filter (fun item => callbackId item ≠ i) (replicate n {| callbackId := i; callback := cb |})
    = [].
Proof.
  induction n as [|n IH]; [done|]. simpl.
  rewrite filter_cons_False; [done|]. simpl. tauto.
Qed.

Lemma filter_others (i : nat) (items : list OnChangeCallback) :
  (∀ item, item ∈ items → callbackId item ≠ i) →
  filter (fun item => callbackId item ≠ i) items = items.
Proof.
  induction items as [|item items IH]; intros Hall; [done|].
  rewrite filter_cons_True by apply Hall, list_elem_of_here.
  rewrite IH; [done|]. intros item' Hin. apply Hall. by apply list_elem_of_further.
Qed.

(** X17. A subscription that is registered and removed again leaves every
    entry it found as it found it, callbacks and baseline; an address it was
    the first to register stays tracked, with the baseline taken at
    registration and no callback. *)
Theorem subscribe_then_remove_restores_entries
    (st : Store.t) (paths : Path.t + list Path.t) (cb : Callback) (k : string) :
  store_wf st →
  let r := Store.onChange paths cb st in
  let after := Store._changePaths (Store.remove r.2 r.1) in
  (∀ e, map_get k (Store._changePaths st) = Some e → map_get k after = Some e) ∧
  (∀ q0, map_get k (Store._changePaths st) = None →
         first_at k (Store.handle_paths r.2) = Some q0 →
         map_get k after = Some {| callbacks := []; previousValue := Path.value q0 |}).
Proof.
  intros [Hnd Hbelow] r after. unfold after. rewrite remove_strip, strip_all_get.
  unfold r, Store.onChange. rewrite addOnChange_all. cbn [fst snd Store._changePaths
    Store.handle_paths Store.handle_callbackId].
  set (ps := match paths with inl p => [p] | inr ps => ps end).
  set (i := Store._callbackId st).
  split.
  - intros e Hget. case_bool_decide as Hk.
    + destruct (add_entry_all_known cb i ps _ k e Hget) as [n ->].
      cbn. f_equal. unfold strip. cbn. rewrite filter_app, filter_replicate_own, app_nil_r.
      rewrite filter_others; [by destruct e|].
      intros item Hin. apply map_get_Some_elem in Hget.
      assert (callbackId item < i); [|lia].
      apply (Hbelow k e); [done|]. unfold subscribers. apply list_elem_of_fmap. eauto.
    + by rewrite add_entry_all_other.
  - intros q0 Hget Hfirst.
    assert (k ∈ Path.path <$> ps) as Hk.
    { unfold first_at in Hfirst. apply find_some in Hfirst as [Hin Heq].
      apply bool_decide_eq_true_1 in Heq as <-.
      apply list_elem_of_fmap. exists q0. split; [done|]. by apply list_elem_of_In. }
    rewrite bool_decide_true by done.
    destruct (add_entry_all_new cb i ps _ k q0 Hget Hfirst) as [n ->].
    cbn. f_equal. unfold strip. cbn. by rewrite filter_replicate_own.
Qed.

Lemma subscribe_then_remove_restores_entries_witness :
  let r := Store.onChange (inr [Samples.path_a; Samples.path_c]) Samples.log_c
             Samples.subscribed_a.1 in
  let after := Store._changePaths (Store.remove r.2 r.1) in
  map_get "/a" after
    = Some {| callbacks := [{| callbackId := 0; callback := Samples.log_a |}];
              previousValue := Some (VObj 1 {[ "b" := VNum 1 ]}) |} ∧
  map_get "/c" after = Some {| callbacks := []; previousValue := Some (VNum 2) |}.
Proof.
  assert (store_wf Samples.subscribed_a.1) as Hwf.
  { split.
    - apply (bool_decide_unpack _). reflexivity.
    - intros k e j Hin Hj. vm_compute in Hin.
      apply elem_of_cons in Hin as [[= -> ->] | Hin].
      { apply list_elem_of_singleton in Hj as ->. vm_compute. lia. }
      apply list_elem_of_singleton in Hin as [= -> ->].
      apply list_elem_of_singleton in Hj as ->. vm_compute. lia. }
  destruct (subscribe_then_remove_restores_entries Samples.subscribed_a.1
              (inr [Samples.path_a; Samples.path_c]) Samples.log_c "/a" Hwf) as [Ha _].
  destruct (subscribe_then_remove_restores_entries Samples.subscribed_a.1
              (inr [Samples.path_a; Samples.path_c]) Samples.log_c "/c" Hwf) as [_ Hc].
  split.
  - apply Ha. reflexivity.
  - apply (Hc Samples.path_c); reflexivity.
Defined.

(** ** Further properties of the worker store *)

Lemma worker_invalidate_idle st :
  WorkerStore._changePaths st = [] →
  WorkerStore.invalidate st = (st, [Emitted "invalidate"]).
Proof.
  intros Hcp. unfold WorkerStore.invalidate, WorkerStore._runOnChanges.
  rewrite Hcp. simpl. by destruct st; simpl in *; subst.
Qed.

Lemma worker_perform_idle a st :
  WorkerStore._changePaths st = [] →
  WorkerStore._changePaths (worker_perform a st).1 = [].
Proof.
  intros Hcp. destruct a as [p | operations invalidate_arg | | data]; unfold worker_perform.
  - done.
  - done.
  - by rewrite worker_invalidate_idle.
  - unfold WorkerStore.onmessage.
    destruct (WorkerStore._messageQueue st !! Response.id data) as [[|[|]]|]; try done.
    fold (answered (Response.id data) st). by rewrite worker_invalidate_idle.
Qed.

Lemma worker_perform_bounded a st : queue_bounded st → queue_bounded (worker_perform a st).1.
Proof.
  intros Hb. destruct a as [p | operations invalidate_arg | | data]; unfold worker_perform.
  - by apply get_bounded.
  - by apply apply_bounded.
  - by apply worker_invalidate_bounded.
  - by apply onmessage_bounded.
Qed.

Lemma worker_perform_all_idle actions st :
  WorkerStore._changePaths st = [] →
  WorkerStore._changePaths (worker_perform_all actions st).1 = [].
Proof.
  revert st. induction actions as [|a actions IH]; intros st Hcp; simpl; [done|].
  by apply IH, worker_perform_idle.
Qed.

Lemma worker_perform_all_bounded actions st :
  queue_bounded st → queue_bounded (worker_perform_all actions st).1.
Proof.
  revert st. induction actions as [|a actions IH]; intros st Hb; simpl; [done|].
  by apply IH, worker_perform_bounded.
Qed.

(** X12. In every worker store reached from a new one, by calls and by
    answers in any order, no address is tracked, and every pending id is at
    most the message counter. *)
Theorem reachable_worker_store_is_idle (actions : list WorkerAction) :
  let st := (worker_perform_all actions WorkerStore.create.1).1 in
  WorkerStore._changePaths st = [] ∧ queue_bounded st.
Proof.
  split.
  - by apply worker_perform_all_idle.
  - apply worker_perform_all_bounded, create_bounded.
Qed.

Lemma worker_perform_posts a rest st :
  WorkerStore._changePaths st = [] →
  posted (worker_perform a st).2
    ++ requests_of (S (WorkerStore._messageId (worker_perform a st).1)) rest
    = requests_of (S (WorkerStore._messageId st)) (a :: rest) ∧
  called_ids (worker_perform a st).2 = [].
Proof.
  intros Hcp. destruct a as [p | operations invalidate_arg | | data]; unfold worker_perform.
  - simpl. by rewrite Nat.add_1_r.
  - simpl. by rewrite Nat.add_1_r.
  - by rewrite worker_invalidate_idle.
  - unfold WorkerStore.onmessage.
    destruct (WorkerStore._messageQueue st !! Response.id data) as [[|[|]]|]; try done.
    fold (answered (Response.id data) st). by rewrite worker_invalidate_idle.
Qed.

Lemma worker_perform_all_posts actions st :
  WorkerStore._changePaths st = [] →
  posted (worker_perform_all actions st).2 = requests_of (S (WorkerStore._messageId st)) actions ∧
  called_ids (worker_perform_all actions st).2 = [].
Proof.
  revert st. induction actions as [|a actions IH]; intros st Hcp; [done|].
  cbn [worker_perform_all fst snd].
  destruct (IH (worker_perform a st).1 (worker_perform_idle a st Hcp)) as [Hp Hc].
  destruct (worker_perform_posts a actions st Hcp) as [Hp' Hc'].
  rewrite posted_app, called_ids_app, Hp, Hc, Hc'. done.
Qed.

(** X13. A worker store posts what it is called for and nothing else: over
    any sequence of calls and answers from a new store, the requests posted
    are those of the [get] and [apply] calls, in the order of the calls,
    numbered 1, 2, 3 and so on, and no change callback is ever invoked. *)
Theorem worker_posts_the_calls (actions : list WorkerAction) :
  posted (worker_perform_all actions WorkerStore.create.1).2 = requests_of 1 actions ∧
  called_ids (worker_perform_all actions WorkerStore.create.1).2 = [].
Proof. by apply worker_perform_all_posts. Qed.

Lemma onmessage_frame st data :
  queue_bounded st →
  let r := WorkerStore.onmessage data st in
  match WorkerStore._messageQueue st !! Response.id data with
  | Some _ =>
      WorkerStore._messageId st ≤ WorkerStore._messageId r.1 ∧
      (∀ i, i ≤ WorkerStore._messageId st →
            WorkerStore._messageQueue st !! i = None →
            WorkerStore._messageQueue r.1 !! i = None) ∧
      settled r.2 = [(Response.id data, Response.result data)] ∧
      WorkerStore._messageQueue r.1 !! Response.id data = None
  | None => r = (st, [Warned (Response.id data)])
  end.
Proof.
  intros Hb r. unfold r, WorkerStore.onmessage.
  destruct (WorkerStore._messageQueue st !! Response.id data) as [w|] eqn:Hget; [|done].
  fold (answered (Response.id data) st).
  pose proof (map_Forall_lookup_1 _ _ _ _ Hb Hget) as Hid. simpl in Hid.
  assert (∀ i, i ≤ WorkerStore._messageId st →
               WorkerStore._messageQueue st !! i = None →
               WorkerStore._messageQueue (answered (Response.id data) st) !! i = None) as Hdel.
  { intros i _ Hnone. simpl. destruct (decide (Response.id data = i)) as [->|Hne].
    - apply lookup_delete_eq.
    - by rewrite lookup_delete_ne. }
  destruct w as [|[|]].
  - split_and!; [done | done | done | apply lookup_delete_eq].
  - destruct (worker_invalidate_frame (answered (Response.id data) st)) as (Hle & Hq & Hs & _).
    cbn [fst snd]. split_and!.
    + done.
    + intros i Hi Hnone. rewrite Hq by done. by apply Hdel.
    + rewrite settled_app, Hs. done.
    + rewrite Hq by done. apply lookup_delete_eq.
  - split_and!; [done | done | done | apply lookup_delete_eq].
Qed.

Lemma worker_perform_settles a st :
  queue_bounded st →
  let r := worker_perform a st in
  WorkerStore._messageId st ≤ WorkerStore._messageId r.1 ∧
  (∀ i, i ≤ WorkerStore._messageId st →
        WorkerStore._messageQueue st !! i = None →
        WorkerStore._messageQueue r.1 !! i = None) ∧
  (settled r.2 = [] ∨
   ∃ d, a = Receive d ∧
        settled r.2 = [(Response.id d, Response.result d)] ∧
        is_Some (WorkerStore._messageQueue st !! Response.id d) ∧
        WorkerStore._messageQueue r.1 !! Response.id d = None).
Proof.
  intros Hb. destruct a as [p | operations invalidate_arg | | data]; unfold worker_perform.
  - simpl. split_and!; [lia | | by left].
    intros i Hi Hnone. rewrite lookup_insert_ne by lia. done.
  - simpl. split_and!; [lia | | by left].
    intros i Hi Hnone. rewrite lookup_insert_ne by lia. done.
  - destruct (worker_invalidate_frame st) as (Hle & Hq & Hs & _). cbv zeta.
    split_and!; [done | | by left].
    intros i Hi Hnone. by rewrite Hq.
  - pose proof (onmessage_frame st data Hb) as Hm. cbv zeta in Hm.
    destruct (WorkerStore._messageQueue st !! Response.id data) as [w|] eqn:Hget.
    + destruct Hm as (Hle & Hdead & Hs & Hgone).
      split_and!; [done | done |]. right. exists data. rewrite Hget. eauto.
    + rewrite Hm. split_and!; [done | done |]. by left.
Qed.

Lemma worker_run_settles actions st D :
  queue_bounded st → answered_ids D st → NoDup D →
  NoDup (D ++ (settled (worker_perform_all actions st).2).*1) ∧
  settled (worker_perform_all actions st).2 `sublist_of` answers_of actions.
Proof.
  revert st D. induction actions as [|a actions IH]; intros st D Hb Hdead Hnd.
  - simpl. by rewrite app_nil_r.
  - cbn [worker_perform_all fst snd]. rewrite settled_app, fmap_app.
    destruct (worker_perform_settles a st Hb) as (Hle & Hkeep & Hcase).
    pose proof (worker_perform_bounded a st Hb) as Hb'.
    assert (answered_ids D (worker_perform a st).1) as Hdead'.
    { intros i Hi. destruct (Hdead i Hi) as [Hi1 Hi2]. split; [lia | by apply Hkeep]. }
    destruct Hcase as [Hnone | (d & -> & Hs & Hsome & Hgone)].
    + rewrite Hnone. simpl.
      destruct (IH _ D Hb' Hdead' Hnd) as [Hnd' Hsub]. split; [done|].
      destruct a; try done. by apply sublist_cons.
    + rewrite Hs. simpl.
      assert (Response.id d ≤ WorkerStore._messageId st) as Hid.
      { destruct Hsome as [w Hw]. by apply (map_Forall_lookup_1 _ _ _ _ Hb Hw). }
      assert (Response.id d ∉ D) as Hfresh.
      { intros Hin. destruct (Hdead _ Hin) as [_ Hn]. rewrite Hn in Hsome. by destruct Hsome. }
      destruct (IH (worker_perform (Receive d) st).1 (D ++ [Response.id d]) Hb')
        as [Hnd' Hsub].
      * intros i [Hi | ->%list_elem_of_singleton]%elem_of_app; [by apply Hdead'|].
        split; [lia | done].
      * apply NoDup_app. split_and!; [done | | apply NoDup_singleton].
        intros x Hx ->%list_elem_of_singleton. done.
      * rewrite <- app_assoc in Hnd'. split; [done|].
        by apply sublist_skip.
Qed.

(** X14. Over any sequence of calls and answers from a new worker store, a
    promise is settled at most once, and only by an answer carrying its id,
    with the result of that answer: the settlements are some of the answers
    received, in the order received, and no id occurs twice among them. *)
Theorem promises_settle_once (actions : list WorkerAction) :
  let out := (worker_perform_all actions WorkerStore.create.1).2 in
  NoDup (settled out).*1 ∧ settled out `sublist_of` answers_of actions.
Proof.
  apply (worker_run_settles actions WorkerStore.create.1 []).
  - apply create_bounded.
  - intros i Hi. by apply elem_of_nil in Hi.
  - apply NoDup_nil_2.
Qed.

Lemma fresh_id_free st :
  queue_bounded st → WorkerStore._messageQueue st !! (WorkerStore._messageId st + 1) = None.
Proof.
  intros Hb. destruct (WorkerStore._messageQueue st !! _) as [w|] eqn:Hget; [|done].
  pose proof (map_Forall_lookup_1 _ _ _ _ Hb Hget) as Hle. simpl in Hle. lia.
Qed.

(** X15. A request and its answer leave the table of pending requests as
    it was: after a [get], or an [apply] that does not invalidate, the answer
    carrying the id of the request settles its promise with the result and
    gives back the store of before, the counter one further. *)
Theorem request_and_answer_restore_the_table
    (st : WorkerStore.t) (p : Path.t) (operations : list Operation) (result : JsValue) :
  queue_bounded st →
  let i := WorkerStore._messageId st + 1 in
  let st' := {| WorkerStore._messageId := i;
                WorkerStore._messageQueue := WorkerStore._messageQueue st;
                WorkerStore._changePaths := WorkerStore._changePaths st |} in
  WorkerStore.onmessage {| Response.id := i; Response.result := result |}
    (WorkerStore.get p st).1.1 = (st', [Settled i result]) ∧
  WorkerStore.onmessage {| Response.id := i; Response.result := result |}
    (WorkerStore.apply operations None st).1.1 = (st', [Settled i result]).
Proof.
  intros Hb i st'. pose proof (fresh_id_free st Hb) as Hfree. fold i in Hfree.
  unfold WorkerStore.onmessage, WorkerStore.get, WorkerStore.apply, WorkerStore._getResult.
  cbn [fst snd Response.id Response.result WorkerStore._messageQueue WorkerStore._messageId
       WorkerStore._changePaths default from_option].
  fold i. rewrite !lookup_insert_eq.
  rewrite !delete_insert_eq, !delete_id by done. done.
Qed.

Lemma request_and_answer_restore_the_table_witness :
  WorkerStore.onmessage {| Response.id := 3; Response.result := Some (VNum 2) |}
    (WorkerStore.get (WorkerStore.path (inl "/c") []) Samples.in_flight).1.1
    = ({| WorkerStore._messageId := 3;
          WorkerStore._messageQueue := WorkerStore._messageQueue Samples.in_flight;
          WorkerStore._changePaths := [] |},
       [Settled 3 (Some (VNum 2))]).
Proof.
  destruct (request_and_answer_restore_the_table Samples.in_flight
              (WorkerStore.path (inl "/c") []) [] (Some (VNum 2))) as [H _].
  - apply (bool_decide_unpack _). reflexivity.
  - exact H.
Defined.
